(** * key_analysis.py: grouping, lookup and range classification of keys

    A shallow embedding of [src/key_analysis.py] and the properties of its
    three pure cores:

    - [get_groups]: one left-to-right pass that cuts a sequence of integers
      into runs whose consecutive gaps stay within a tolerance;
    - [find_group_index]: binary search over the group starts followed by a
      window test on the two neighbouring groups;
    - the classification loop of [main]: keys below [CUTOFF] are kept, keys
      at or above it are rescaled by four.

    Python integers are unbounded, hence [Z].  Python lists are [list]s;
    the list objects that [get_groups] mutates through an alias live in an
    explicit object store.  Exceptions are values of [exn] carried by the
    [result] monad.

    Around these cores the development also covers the byte encoder of
    [process_raw_text] (lines 49-53), the decoder of [main] (lines 70-75)
    and the integer part of its report (lines 88-97); byte strings are
    lists of [byte].  The text parsing of [process_raw_text] (lines 43-48,
    which depends on the Unicode tables behind [str.isdigit] and [int])
    and the floating-point formatting of the printed percentage are not
    modelled. *)

From Stdlib Require Import ZArith List Lia Bool String Sorted.
From stdpp Require Import base list.
From Equations Require Import Equations.
From Stdlib Require Import Strings.Byte.
Import ListNotations.
Local Open Scope Z_scope.

(** ** Python runtime: exceptions, sequences *)

Module Py.

(** The exceptions a Python program of this shape can raise.  The built-in
    ones are constructors; [UserError cls] stands for an exception class
    [cls] declared by the program itself ([key_analysis.py] declares none). *)
Inductive exn : Type :=
| IndexError
| AssertionError
| ValueError
| UserError (cls : string).

Inductive result (A : Type) : Type :=
| Ok (a : A)
| Raise (e : exn).
Arguments Ok {A} a.
Arguments Raise {A} e.

Definition bind {A B} (m : result A) (k : A -> result B) : result B :=
  match m with
  | Ok a => k a
  | Raise e => Raise e
  end.

(** [len(l)] *)
Definition len {A} (l : list A) : Z := Z.of_nat (length l).

(** [l[i]]: a negative subscript counts from the end, a subscript outside
    [-len(l) .. len(l)-1] raises [IndexError]. *)
Definition getitem {A} (l : list A) (i : Z) : result A :=
  let j := if i <? 0 then i + len l else i in
  if (j <? 0) || (len l <=? j) then Raise IndexError
  else match l !! Z.to_nat j with
       | Some a => Ok a
       | None => Raise IndexError
       end.

(** [min(l)] on integers; [ValueError] on the empty sequence. *)
Definition min (l : list Z) : result Z :=
  match l with
  | [] => Raise ValueError
  | a :: l' => Ok (fold_left Z.min l' a)
  end.

(** [for x in xs: body], threading the loop state and stopping at the first
    exception. *)
Fixpoint for_each {S A} (body : S -> A -> result S) (xs : list A) (s : S)
  : result S :=
  match xs with
  | [] => Ok s
  | x :: xs' => bind (body s x) (for_each body xs')
  end.

(** [[f(g) for g in l]] with a fallible [f]. *)
Fixpoint comprehension {A B} (f : A -> result B) (l : list A)
  : result (list B) :=
  match l with
  | [] => Ok []
  | a :: l' =>
      bind (f a) (fun b =>
      bind (comprehension f l') (fun bs => Ok (b :: bs)))
  end.

End Py.

Import Py.

Notation "x <- m ;; k" := (bind m (fun x => k))
  (at level 100, m at next level, right associativity).

(** ** Module constants (lines 4-7) *)

Definition PAGE : Z := 1024.
Definition CUTOFF : Z := 0x10000.
Definition MAX_GAP : Z := 4.

(** ** [bisect.bisect_left]

    The standard-library routine called at line 22, with its defaults
    [lo = 0], [hi = len(a)] and no key:

      while lo < hi:
          mid = (lo + hi) // 2
          if a[mid] < x: lo = mid + 1
          else: hi = mid
      return lo

    The loop is defined by well-founded recursion on [hi - lo]. *)

Equations? bisect_loop (a : list Z) (x lo hi : Z) : result Z
  by wf (Z.to_nat (hi - lo)) lt :=
bisect_loop a x lo hi with Z_lt_dec lo hi := {
  | left _ =>
      let mid := (lo + hi) / 2 in
      match getitem a mid with
      | Ok v => if v <? x then bisect_loop a x (mid + 1) hi
                else bisect_loop a x lo mid
      | Raise e => Raise e
      end
  | right _ => Ok lo }.
Proof.
  all: pose proof (Z.div_mod (lo + hi) 2 ltac:(lia));
       pose proof (Z.mod_pos_bound (lo + hi) 2 ltac:(lia)); lia.
Qed.

Definition bisect_left (a : list Z) (x : Z) : result Z :=
  bisect_loop a x 0 (len a).

(** ** [find_group_index] (lines 10-38) *)

Definition find_group_index (groups : list (list Z)) (x PAGE : Z)
  : result Z :=
  match groups with
  | [] => Ok (-1)
  | _ :: _ =>
      starts <- comprehension (fun g => getitem g 0) groups ;;
      pos <- bisect_left starts x ;;
      let candidates : list Z := [] in
      candidates <-
        (if pos <? len groups then
           g <- getitem groups pos ;;
           s <- getitem g 0 ;;
           if Z.abs (s - x) <? PAGE then Ok (candidates ++ [pos])
           else Ok candidates
         else Ok candidates) ;;
      candidates <-
        (if pos >? 0 then
           g <- getitem groups (pos - 1) ;;
           s <- getitem g 0 ;;
           if Z.abs (s - x) <? PAGE then Ok (candidates ++ [pos - 1])
           else Ok candidates
         else Ok candidates) ;;
      match candidates with
      | [] => Ok (-1)
      | _ :: _ => Py.min candidates
      end
  end.

(** ** [get_groups] (lines 56-66)

    [groups] is a list of references to list objects.  [last_group =
    groups[-1]] copies a reference, so [last_group.append(x)] changes the
    object that [groups] still points to.  The store maps a reference (the
    allocation number) to the current contents of its object. *)

Abbreviation ref := nat (only parsing).
Abbreviation store := (list (list Z)) (only parsing).

(** A list display [[x]] creates a new object. *)
Definition alloc (h : store) (v : list Z) : ref * store :=
  (length h, h ++ [v]).

(** Contents of the object behind a reference. *)
Definition deref (h : store) (r : ref) : list Z := h !!! r.

(** [r.append(x)]: in-place update of the object behind [r]. *)
Definition list_append (h : store) (r : ref) (x : Z) : store :=
  alter (fun l => l ++ [x]) r h.

(** Body of the loop at lines 59-64. *)
Definition get_groups_body (gap : Z) (st : store * list ref) (x : Z)
  : result (store * list ref) :=
  let '(h, groups) := st in
  last_group <- getitem groups (-1) ;;
  l <- getitem (deref h last_group) (-1) ;;
  if x - l >? gap then
    let '(r, h') := alloc h [x] in
    Ok (h', groups ++ [r])
  else
    Ok (list_append h last_group x, groups).

Definition get_groups (nums : list Z) (gap : Z) : result (list (list Z)) :=
  first <- getitem nums 0 ;;
  let '(r0, h0) := alloc [] [first] in
  st <- for_each (get_groups_body gap) (drop 1 nums) (h0, [r0]) ;;
  let '(h, groups) := st in
  Ok (map (deref h) groups).

(** ** Range classification in [main] (lines 79-86) *)

Definition classify_body (st : list Z * list Z) (x : Z)
  : result (list Z * list Z) :=
  let '(low, high) := st in
  if x <? CUTOFF then Ok (low ++ [x], high)
  else if negb (x mod 4 =? 0) then Raise AssertionError
  else Ok (low, high ++ [CUTOFF + (x - CUTOFF) / 4]).

Definition main_classify (nums : list Z) : result (list Z * list Z) :=
  for_each classify_body nums ([], []).

(** The statistic of lines 90-94: [sum(y - x - 1 for g in groups
    for x, y in zip(g, g[1:]))]. *)
Definition main_gaps (groups : list (list Z)) : Z :=
  fold_left Z.add
    (flat_map (fun g => map (fun p => snd p - fst p - 1)
                            (combine g (drop 1 g))) groups) 0.

(** ** Vocabulary of the properties *)

(** Every two consecutive members of a group are at most [gap] apart. *)
Definition cohesive (gap : Z) (g : list Z) : Prop :=
  forall (i : nat) (x y : Z),
    g !! i = Some x -> g !! S i = Some y -> y - x <= gap.

(** Every group starts more than [gap] after the end of its predecessor. *)
Definition separated (gap : Z) (gs : list (list Z)) : Prop :=
  forall (i : nat) (A B : list Z),
    gs !! i = Some A -> gs !! S i = Some B ->
    exists a b, last A = Some a /\ head B = Some b /\ b - a > gap.

(** [s] is the start (first element) of group [g]; [Forall2 is_start groups
    starts] says that [starts] is the start table of [groups]. *)
Definition is_start (g : list Z) (s : Z) : Prop := head g = Some s.

(** Leftmost insertion position of [x]: everything before it is below [x],
    everything from it on is at least [x]. *)
Definition insertion_point (starts : list Z) (x : Z) (pos : nat) : Prop :=
  (pos <= length starts)%nat
  /\ (forall (i : nat) (s : Z), starts !! i = Some s -> (i < pos)%nat -> s < x)
  /\ (forall (i : nat) (s : Z), starts !! i = Some s -> (pos <= i)%nat -> x <= s).

(** Differences between neighbouring starts. *)
Definition adjacent_distances (starts : list Z) : list Z :=
  zip_with (fun a b => b - a) starts (drop 1 starts).

(** The window test of lines 29 and 34 on an optional candidate start. *)
Definition qualifies (PAGE x : Z) (start : option Z) : bool :=
  match start with
  | Some s => Z.abs (s - x) <? PAGE
  | None => false
  end.

(** Outcome of the candidate selection once the insertion position is
    known. *)
Definition locate (starts : list Z) (x PAGE : Z) (pos : nat) : Z :=
  let q_pos := qualifies PAGE x (starts !! pos) in
  let q_prev := match pos with
                | O => false
                | S p => qualifies PAGE x (starts !! p)
                end in
  match q_pos, q_prev with
  | true, true => Z.of_nat pos - 1
  | true, false => Z.of_nat pos
  | false, true => Z.of_nat pos - 1
  | false, false => -1
  end.

(** The scan of [get_groups] as a structural recursion, used to reason
    about the loop: [runs gap prev xs] returns what the elements [xs] add to
    the group that currently ends in [prev], and the groups opened after
    it. *)
Fixpoint runs (gap prev : Z) (xs : list Z) : list Z * list (list Z) :=
  match xs with
  | [] => ([], [])
  | x :: xs' =>
      let '(c, gs) := runs gap x xs' in
      if x - prev >? gap then ([], (x :: c) :: gs) else (x :: c, gs)
  end.

Definition groups_of (gap : Z) (nums : list Z) : list (list Z) :=
  match nums with
  | [] => []
  | x0 :: xs => let '(c, gs) := runs gap x0 xs in (x0 :: c) :: gs
  end.

(** The image of a key at or above [CUTOFF] (line 86). *)
Definition rescale (x : Z) : Z := CUTOFF + (x - CUTOFF) / 4.

(** A key that passes the check of line 85 whenever it reaches it. *)
Definition divisible_high (x : Z) : Prop := CUTOFF <= x -> x mod 4 = 0.

(** A key that reaches the check of line 85 and fails it. *)
Definition invalid_high (x : Z) : Prop := CUTOFF <= x /\ x mod 4 <> 0.

(** ** Further exceptions and byte strings

    [process_raw_text] and the report of [main] can raise two built-in
    exceptions beyond those of [Py.exn]: [OverflowError] ([int.to_bytes])
    and [ZeroDivisionError] (the division at line 97). *)

Module PyIO.

Inductive exn_ext : Type :=
| Core (e : exn)
| OverflowError
| ZeroDivisionError.

Inductive outcome (A : Type) : Type :=
| Return (a : A)
| Throw (e : exn_ext).
Arguments Return {A} a.
Arguments Throw {A} e.

Definition obind {A B} (m : outcome A) (k : A -> outcome B) : outcome B :=
  match m with
  | Return a => k a
  | Throw e => Throw e
  end.

(** A computation that raises only exceptions of [Py.exn]. *)
Definition lift {A} (m : result A) : outcome A :=
  match m with
  | Ok a => Return a
  | Raise e => Throw (Core e)
  end.

(** The integer value of a byte, as seen when a [bytes] object is
    iterated or subscripted. *)
Definition byte_int (b : byte) : Z := Z.of_N (Byte.to_N b).

(** The byte whose value is [z mod 256]. *)
Definition byte_of_int (z : Z) : byte :=
  default "000"%byte (Byte.of_N (Z.to_N (z mod 256))).

(** [bytes(l)] on a list of integers: [ValueError] unless every element is
    in [range(0, 256)]. *)
Fixpoint bytes (l : list Z) : result (list byte) :=
  match l with
  | [] => Ok []
  | z :: l' =>
      if (z <? 0) || (256 <=? z) then Raise ValueError
      else bind (bytes l') (fun bs => Ok (byte_of_int z :: bs))
  end.

(** The [n] low-order base-256 digits of [x], least significant first. *)
Fixpoint le_bytes (n : nat) (x : Z) : list byte :=
  match n with
  | O => []
  | S n' => byte_of_int x :: le_bytes n' (x / 256)
  end.

(** [x.to_bytes(n, 'little')] (unsigned): [OverflowError] on a negative
    [x] and on an [x] that does not fit in [n] bytes. *)
Definition to_bytes_little (x : Z) (n : nat) : outcome (list byte) :=
  if x <? 0 then Throw OverflowError
  else if 256 ^ Z.of_nat n <=? x then Throw OverflowError
  else Return (le_bytes n x).

(** [int.from_bytes(bs, 'little')] (unsigned). *)
Fixpoint from_bytes_little (bs : list byte) : Z :=
  match bs with
  | [] => 0
  | b :: bs' => byte_int b + 256 * from_bytes_little bs'
  end.

(** A slice bound [i] of a sequence of length [n]: a negative bound counts
    from the end, and the result is clamped to [0 .. n]. *)
Definition slice_bound (n i : Z) : Z :=
  if i <? 0 then Z.max (i + n) 0 else Z.min i n.

(** [l[a:b]] *)
Definition getslice {A} (l : list A) (a b : Z) : list A :=
  let lo := slice_bound (len l) a in
  let hi := slice_bound (len l) b in
  take (Z.to_nat (hi - lo)) (drop (Z.to_nat lo) l).

(** The list after [l[a:b] = v]. *)
Definition setslice {A} (l : list A) (a b : Z) (v : list A) : list A :=
  let lo := slice_bound (len l) a in
  let hi := Z.max lo (slice_bound (len l) b) in
  take (Z.to_nat lo) l ++ v ++ drop (Z.to_nat hi) l.

(** [range(n)] *)
Definition range (n : Z) : list Z := map Z.of_nat (seq 0 (Z.to_nat n)).

End PyIO.

Import PyIO.

Notation "x <~ m ;; k" := (obind m (fun x => k))
  (at level 100, m at next level, right associativity).

(** ** The encoder of [process_raw_text] (lines 49-53)

    The part of [process_raw_text] after the keys have been parsed:
    [process_raw_text_bytes nums] is the byte string written to
    [keys.hex].  The loop of lines 50-51 carries the index of [enumerate]
    and the buffer. *)

Fixpoint process_raw_text_loop (i : Z) (nums : list Z) (out_buf : list Z)
  : outcome (list Z) :=
  match nums with
  | [] => Return out_buf
  | x :: rest =>
      bs <~ to_bytes_little x 4 ;;
      process_raw_text_loop (i + 1) rest
        (setslice out_buf (i * 4) ((i + 1) * 4) (map byte_int bs))
  end.

Definition process_raw_text_bytes (nums : list Z) : outcome (list byte) :=
  let out_buf := replicate (Z.to_nat (len nums * 4)) 0 in
  out_buf <~ process_raw_text_loop 0 nums out_buf ;;
  lift (bytes out_buf).

(** ** The decoder and the report of [main] (lines 70-97) *)

(** Lines 72-75: the keys read from the contents of [keys.hex]. *)
Definition main_read (raw_nums : list byte) : list Z :=
  map (fun i => from_bytes_little (getslice raw_nums (i * 4) ((i + 1) * 4)))
      (range (len raw_nums / 4)).

(** One printed line: the tolerance, the number of groups, the gap sum and
    the divisor [total] of the percentage. *)
Record row : Type := Row {
  row_max_dist : Z;
  row_groups : Z;
  row_gaps : Z;
  row_total : Z
}.

(** Lines 89-97 for one tolerance.  The division [gaps / total] raises
    [ZeroDivisionError] when [total] is zero; the floating-point quotient
    and its formatting are not part of the model. *)
Definition main_row (high : list Z) (max_dist : Z) : outcome row :=
  groups <~ lift (get_groups high max_dist) ;;
  let gaps := main_gaps groups in
  let total := len high + gaps in
  if total =? 0 then Throw ZeroDivisionError
  else Return (Row max_dist (len groups) gaps total).

(** The loop of line 88 over a tuple of tolerances, stopping at the first
    exception. *)
Fixpoint main_rows (high : list Z) (dists : list Z) : outcome (list row) :=
  match dists with
  | [] => Return []
  | max_dist :: rest =>
      r <~ main_row high max_dist ;;
      rs <~ main_rows high rest ;;
      Return (r :: rs)
  end.

(** [main] from the contents of [keys.hex] to the lines it prints. *)
Definition main_run (raw_nums : list byte) : outcome (list row) :=
  let nums := main_read raw_nums in
  st <~ lift (main_classify nums) ;;
  let '(low, high) := st in
  main_rows high [1; 2; 4; 8; 16; 32; 64].

(** ** Vocabulary of the codec *)

(** A key that fits in four bytes. *)
Definition in_u32 (x : Z) : Prop := 0 <= x < 2 ^ 32.

(** The keys laid out four bytes each, little-endian. *)
Definition le_image (nums : list Z) : list byte :=
  concat (map (le_bytes 4) nums).

(** ** Vocabulary of the report *)

(** The number of integers from the first to the last member of a group. *)
Definition span (g : list Z) : Z :=
  match head g, last g with
  | Some a, Some b => b - a + 1
  | _, _ => 0
  end.

Definition total_span (groups : list (list Z)) : Z :=
  foldr Z.add 0 (map span groups).

(** ** Scenarios of the specification, by evaluation *)

Example scenario_1 :
  get_groups [1; 2; 3; 10; 11; 50] 1 = Ok [[1; 2; 3]; [10; 11]; [50]].
Proof. reflexivity. Qed.

Example scenario_2 :
  get_groups [1; 2; 3; 10; 11; 50] 10 = Ok [[1; 2; 3; 10; 11]; [50]]
  /\ main_gaps [[1; 2; 3; 10; 11]; [50]] = 6.
Proof. split; reflexivity. Qed.

Example scenario_3 :
  main_classify [100; 0x10000; 0x10008] = Ok ([100], [0x10000; 0x10002]).
Proof. reflexivity. Qed.

Example scenario_4 : main_classify [0x10001] = Raise AssertionError.
Proof. reflexivity. Qed.

Example scenario_5 :
  find_group_index [[100]; [2000]; [5000]] 900 1024 = Ok 0.
Proof. reflexivity. Qed.

(** ** Python sequences *)

Lemma len_app {A} (l1 l2 : list A) : len (l1 ++ l2) = len l1 + len l2.
Proof. unfold len. rewrite length_app. lia. Qed.

Lemma len_nonneg {A} (l : list A) : 0 <= len l.
Proof. unfold len. lia. Qed.

Lemma getitem_nat {A} (l : list A) (i : nat) (a : A) :
  l !! i = Some a -> getitem l (Z.of_nat i) = Ok a.
Proof.
  intros Hi. pose proof (lookup_lt_Some _ _ _ Hi) as Hlt.
  unfold getitem, len.
  destruct (Z.ltb_spec (Z.of_nat i) 0); [lia|].
  destruct (Z.ltb_spec (Z.of_nat i) 0); [lia|].
  destruct (Z.leb_spec (Z.of_nat (length l)) (Z.of_nat i)); [lia|].
  simpl. rewrite Nat2Z.id, Hi. reflexivity.
Qed.

Lemma getitem_last {A} (l : list A) (a : A) : getitem (l ++ [a]) (-1) = Ok a.
Proof.
  unfold getitem. rewrite len_app. change (len [a]) with 1.
  pose proof (len_nonneg l). change (-1 <? 0) with true. cbv iota.
  replace (-1 + (len l + 1)) with (len l) by lia.
  destruct (Z.ltb_spec (len l) 0); [lia|].
  destruct (Z.leb_spec (len l + 1) (len l)); [lia|].
  simpl. unfold len. rewrite Nat2Z.id.
  rewrite lookup_app_r by lia. rewrite Nat.sub_diag. reflexivity.
Qed.

Lemma deref_all (h : store) : map (deref h) (seq 0 (length h)) = h.
Proof.
  apply list_eq. intros i. rewrite list_lookup_fmap.
  destruct (h !! i) as [v|] eqn:Hi.
  - pose proof (lookup_lt_Some _ _ _ Hi).
    rewrite lookup_seq_lt by done. simpl. f_equal.
    unfold deref. by apply list_lookup_total_correct.
  - pose proof (lookup_ge_None_1 _ _ Hi).
    rewrite lookup_seq_ge by done. done.
Qed.

(** ** The scan of [get_groups]

    The loop over the store computes [runs]: after the elements [xs] the
    store holds the groups closed so far, the current group extended by the
    first component of [runs], and the groups opened since; [groups] lists
    every object of the store in allocation order. *)

Section Scan.

Variable gap : Z.

Lemma get_groups_loop (xs : list Z) :
  forall (h0 : store) (g0 : list Z) (l : Z),
    let h := h0 ++ [g0 ++ [l]] in
    for_each (get_groups_body gap) xs (h, seq 0 (length h)) =
    Ok (let '(c, gs) := runs gap l xs in
        let h' := h0 ++ [(g0 ++ [l]) ++ c] ++ gs in
        (h', seq 0 (length h'))).
Proof.
  induction xs as [|x xs IH]; intros h0 g0 l h.
  - simpl. subst h. by rewrite !app_nil_r.
  - cbn [for_each runs]. unfold get_groups_body at 1. cbn beta iota.
    assert (Hg : getitem (seq 0 (length h)) (-1) = Ok (length h0)).
    { subst h. rewrite length_app. simpl. rewrite seq_app. simpl.
      apply getitem_last. }
    rewrite Hg. cbn [bind].
    assert (Hd : deref h (length h0) = g0 ++ [l]).
    { subst h. unfold deref. apply list_lookup_total_correct.
      rewrite lookup_app_r by lia. by rewrite Nat.sub_diag. }
    rewrite Hd, getitem_last. cbn [bind].
    destruct (runs gap x xs) as [c gs] eqn:Hr.
    destruct (x - l >? gap) eqn:Hcmp.
    + unfold alloc. cbn [bind].
      replace (seq 0 (length h) ++ [length h])
        with (seq 0 (length (h ++ [[] ++ [x]]))).
      2:{ rewrite length_app. simpl. rewrite seq_app. done. }
      change (h ++ [[x]]) with (h ++ [[] ++ [x]]).
      rewrite (IH h [] x). rewrite Hr. subst h. simpl.
      rewrite !app_nil_r. rewrite <- !app_assoc. done.
    + cbn [bind].
      assert (Ha : list_append h (length h0) x = h0 ++ [(g0 ++ [l]) ++ [x]]).
      { subst h. unfold list_append.
        pose proof (alter_app_r (fun l0 : list Z => l0 ++ [x]) h0
                      [g0 ++ [l]] 0%nat) as E.
        rewrite Nat.add_0_r in E. exact E. }
      rewrite Ha.
      replace (length h) with (length (h0 ++ [(g0 ++ [l]) ++ [x]]))
        by (subst h; rewrite !length_app; done).
      rewrite (IH h0 (g0 ++ [l]) x), Hr. cbn zeta.
      by rewrite <- (app_assoc (g0 ++ [l]) [x] c).
Qed.

Lemma get_groups_eq (x0 : Z) (xs : list Z) :
  get_groups (x0 :: xs) gap = Ok (groups_of gap (x0 :: xs)).
Proof.
  unfold get_groups, groups_of.
  change (getitem (x0 :: xs) 0) with (Ok x0). cbn [bind alloc].
  change (drop 1 (x0 :: xs)) with xs.
  assert (Hloop :
    for_each (get_groups_body gap) xs ([] ++ [[x0]], [length (@nil (list Z))]) =
    Ok (let '(c, gs) := runs gap x0 xs in
        let h' := (x0 :: c) :: gs in (h', seq 0 (length h')))).
  { exact (get_groups_loop xs [] [] x0). }
  rewrite Hloop. destruct (runs gap x0 xs) as [c gs]. cbn [bind].
  cbn zeta. by rewrite deref_all.
Qed.

Lemma runs_concat (xs : list Z) :
  forall prev, fst (runs gap prev xs) ++ concat (snd (runs gap prev xs)) = xs.
Proof.
  induction xs as [|x xs IH]; intros prev; [done|].
  cbn [runs]. specialize (IH x).
  destruct (runs gap x xs) as [c gs]. simpl in IH.
  destruct (x - prev >? gap); simpl; by rewrite IH.
Qed.

Lemma cohesive_one (a : Z) : cohesive gap [a].
Proof. intros [|i] x y Hx Hy; discriminate. Qed.

Lemma cohesive_cons (a b : Z) (l : list Z) :
  b - a <= gap -> cohesive gap (b :: l) -> cohesive gap (a :: b :: l).
Proof.
  intros Hab Hl [|i] x y Hx Hy.
  - simplify_eq/=. lia.
  - apply (Hl i); done.
Qed.

Lemma runs_cohesive (xs : list Z) :
  forall prev,
    cohesive gap (prev :: fst (runs gap prev xs))
    /\ Forall (cohesive gap) (snd (runs gap prev xs)).
Proof.
  induction xs as [|x xs IH]; intros prev.
  - split; [apply cohesive_one | constructor].
  - cbn [runs]. destruct (IH x) as [Hc Hgs].
    destruct (runs gap x xs) as [c gs]. simpl in Hc, Hgs.
    destruct (Z.gtb_spec (x - prev) gap); simpl.
    + split; [apply cohesive_one | by constructor].
    + split; [apply cohesive_cons; [lia | done] | done].
Qed.

Lemma runs_separated (xs : list Z) :
  forall prev,
    separated gap ((prev :: fst (runs gap prev xs)) :: snd (runs gap prev xs)).
Proof.
  induction xs as [|x xs IH]; intros prev.
  - by intros [|i] A B HA HB.
  - cbn [runs]. specialize (IH x).
    destruct (runs gap x xs) as [c gs]. simpl in IH.
    destruct (Z.gtb_spec (x - prev) gap); simpl.
    + intros [|i] A B HA HB.
      * simpl in HA, HB. injection HA as <-. injection HB as <-.
        exists prev, x. split_and!; [done | done | lia].
      * apply (IH i); done.
    + intros [|i] A B HA HB.
      * destruct (IH 0%nat (x :: c) B eq_refl HB) as (a & b & Ha & Hb & Hab).
        simpl in HA. injection HA as <-. exists a, b. split_and!; done.
      * apply (IH (S i)); done.
Qed.

Lemma runs_nonempty (xs : list Z) :
  forall prev, Forall (fun g => g <> []) (snd (runs gap prev xs)).
Proof.
  induction xs as [|x xs IH]; intros prev; [constructor|].
  cbn [runs]. specialize (IH x).
  destruct (runs gap x xs) as [c gs]. simpl in IH.
  destruct (x - prev >? gap); simpl; [by constructor | done].
Qed.

End Scan.

Lemma runs_count_mono (g1 g2 : Z) (xs : list Z) :
  g1 <= g2 ->
  forall prev,
    (length (snd (runs g2 prev xs)) <= length (snd (runs g1 prev xs)))%nat.
Proof.
  intros Hg. induction xs as [|x xs IH]; intros prev; [done|].
  cbn [runs]. specialize (IH x).
  destruct (runs g1 x xs) as [c1 gs1], (runs g2 x xs) as [c2 gs2].
  simpl in IH.
  destruct (Z.gtb_spec (x - prev) g1), (Z.gtb_spec (x - prev) g2);
    simpl; lia.
Qed.

Lemma get_groups_nonempty (nums : list Z) (gap : Z) :
  nums <> [] -> get_groups nums gap = Ok (groups_of gap nums).
Proof. destruct nums as [|x0 xs]; [done|]. intros _. apply get_groups_eq. Qed.

Lemma groups_of_concat (gap : Z) (nums : list Z) :
  concat (groups_of gap nums) = nums.
Proof.
  destruct nums as [|x0 xs]; [done|]. unfold groups_of.
  pose proof (runs_concat gap xs x0) as H.
  destruct (runs gap x0 xs) as [c gs]. simpl in *. by rewrite H.
Qed.

Lemma groups_of_nonempty (gap : Z) (nums : list Z) :
  Forall (fun g => g <> []) (groups_of gap nums).
Proof.
  destruct nums as [|x0 xs]; [constructor|]. unfold groups_of.
  pose proof (runs_nonempty gap xs x0) as H.
  destruct (runs gap x0 xs) as [c gs]. by constructor.
Qed.

Lemma groups_of_cohesive (gap : Z) (nums : list Z) :
  Forall (cohesive gap) (groups_of gap nums).
Proof.
  destruct nums as [|x0 xs]; [constructor|]. unfold groups_of.
  destruct (runs_cohesive gap xs x0) as [Hc Hgs].
  destruct (runs gap x0 xs) as [c gs]. by constructor.
Qed.

Lemma groups_of_separated (gap : Z) (nums : list Z) :
  separated gap (groups_of gap nums).
Proof.
  destruct nums as [|x0 xs]; [by intros i A B HA|]. unfold groups_of.
  pose proof (runs_separated gap xs x0) as H.
  by destruct (runs gap x0 xs) as [c gs].
Qed.

Lemma groups_of_count_mono (g1 g2 : Z) (nums : list Z) :
  g1 <= g2 ->
  (length (groups_of g2 nums) <= length (groups_of g1 nums))%nat.
Proof.
  intros Hg. destruct nums as [|x0 xs]; [done|]. unfold groups_of.
  pose proof (runs_count_mono g1 g2 xs Hg x0) as H.
  destruct (runs g1 x0 xs) as [c1 gs1], (runs g2 x0 xs) as [c2 gs2].
  simpl in *. lia.
Qed.

(** ** Binary search *)

Lemma getitem_in_range {A} (l : list A) (i : Z) :
  0 <= i < len l ->
  exists a, l !! Z.to_nat i = Some a /\ getitem l i = Ok a.
Proof.
  intros Hi. unfold len in Hi.
  destruct (lookup_lt_is_Some_2 l (Z.to_nat i)) as [a Ha]; [lia|].
  exists a. split; [done|].
  rewrite <- (Z2Nat.id i) by lia. by apply getitem_nat.
Qed.

Lemma mid_bounds (lo hi : Z) : lo < hi -> lo <= (lo + hi) / 2 < hi.
Proof.
  intros H. pose proof (Z.div_mod (lo + hi) 2 ltac:(lia)).
  pose proof (Z.mod_pos_bound (lo + hi) 2 ltac:(lia)). lia.
Qed.

Lemma Sorted_le_lookup (l : list Z) :
  Sorted Z.le l ->
  forall (i j : nat) (u v : Z),
    l !! i = Some u -> l !! j = Some v -> (i <= j)%nat -> u <= v.
Proof.
  intros Hs. apply Sorted_StronglySorted in Hs; [|intros ? ? ?; lia].
  induction Hs as [|a l Hs IH Hall]; intros i j u v Hi Hj Hij; [done|].
  destruct i as [|i], j as [|j]; simpl in Hi, Hj.
  - injection Hi as <-. injection Hj as <-. lia.
  - injection Hi as <-. exact (Forall_lookup_1 _ _ _ _ Hall Hj).
  - lia.
  - apply (IH i j); [done | done | lia].
Qed.

(** The loop of [bisect_left] on a fixed sequence and key. *)

Section Bisect.

Variables (a : list Z) (x : Z).

Lemma bisect_loop_step (lo hi : Z) :
  bisect_loop a x lo hi =
  if lo <? hi then
    match getitem a ((lo + hi) / 2) with
    | Ok v => if v <? x then bisect_loop a x ((lo + hi) / 2 + 1) hi
              else bisect_loop a x lo ((lo + hi) / 2)
    | Raise e => Raise e
    end
  else Ok lo.
Proof.
  rewrite bisect_loop_equation_1.
  destruct (Z_lt_dec lo hi) as [H|H]; simpl.
  - destruct (Z.ltb_spec lo hi); [|lia]. reflexivity.
  - destruct (Z.ltb_spec lo hi); [lia|]. reflexivity.
Qed.

Lemma bisect_loop_total :
  forall (n : nat) (lo hi : Z),
    Z.to_nat (hi - lo) = n ->
    0 <= lo -> lo <= hi -> hi <= len a ->
    exists r, bisect_loop a x lo hi = Ok r /\ lo <= r <= hi.
Proof.
  induction n as [n IH] using lt_wf_ind. intros lo hi Hn Hlo Hle Hhi.
  rewrite bisect_loop_step. destruct (Z.ltb_spec lo hi) as [Hlt|Hge].
  - pose proof (mid_bounds lo hi Hlt) as Hmid.
    destruct (getitem_in_range a ((lo + hi) / 2)) as (v & _ & ->); [lia|].
    destruct (v <? x).
    + destruct (IH (Z.to_nat (hi - ((lo + hi) / 2 + 1))) ltac:(lia)
                   ((lo + hi) / 2 + 1) hi) as (r & -> & Hr); try lia.
      exists r. split; [done | lia].
    + destruct (IH (Z.to_nat ((lo + hi) / 2 - lo)) ltac:(lia)
                   lo ((lo + hi) / 2)) as (r & -> & Hr); try lia.
      exists r. split; [done | lia].
  - exists lo. split; [done | lia].
Qed.

Lemma bisect_loop_sorted :
  Sorted Z.le a ->
  forall (n : nat) (lo hi : Z),
    Z.to_nat (hi - lo) = n ->
    0 <= lo -> lo <= hi -> hi <= len a ->
    (forall (i : nat) (s : Z), a !! i = Some s -> Z.of_nat i < lo -> s < x) ->
    (forall (i : nat) (s : Z), a !! i = Some s -> hi <= Z.of_nat i -> x <= s) ->
    exists pos : nat,
      bisect_loop a x lo hi = Ok (Z.of_nat pos) /\ insertion_point a x pos.
Proof.
  intros Hs. induction n as [n IH] using lt_wf_ind.
  intros lo hi Hn Hlo Hle Hhi Hbelow Habove.
  rewrite bisect_loop_step. destruct (Z.ltb_spec lo hi) as [Hlt|Hge].
  - pose proof (mid_bounds lo hi Hlt) as Hmid.
    destruct (getitem_in_range a ((lo + hi) / 2)) as (v & Hv & ->); [lia|].
    destruct (Z.ltb_spec v x) as [Hvx|Hvx].
    + apply (IH (Z.to_nat (hi - ((lo + hi) / 2 + 1)))); try lia; [|done].
      intros i s Hi Him.
      pose proof (Sorted_le_lookup a Hs i (Z.to_nat ((lo + hi) / 2)) s v
                    Hi Hv ltac:(lia)). lia.
    + apply (IH (Z.to_nat ((lo + hi) / 2 - lo))); try lia; [done|].
      intros i s Hi Him.
      pose proof (Sorted_le_lookup a Hs (Z.to_nat ((lo + hi) / 2)) i v s
                    Hv Hi ltac:(lia)). lia.
  - assert (lo = hi) as <- by lia. exists (Z.to_nat lo).
    rewrite Z2Nat.id by lia. split; [done|]. unfold len in Hhi.
    split_and!; [lia | |].
    + intros i s Hi Hlt. apply (Hbelow i s Hi). lia.
    + intros i s Hi Hlt. apply (Habove i s Hi). lia.
Qed.

End Bisect.

(** ** Evaluating [find_group_index] *)

Lemma getitem_start (g : list Z) (s : Z) : is_start g s -> getitem g 0 = Ok s.
Proof. destruct g as [|s' g]; [done|]. intros [= ->]. reflexivity. Qed.

Lemma comprehension_starts (groups : list (list Z)) (starts : list Z) :
  Forall2 is_start groups starts ->
  comprehension (fun g => getitem g 0) groups = Ok starts.
Proof.
  induction 1 as [|g s groups starts Hg _ IH]; [done|].
  cbn [comprehension]. by rewrite (getitem_start g s Hg), IH.
Qed.

Lemma getitem_group (groups : list (list Z)) (starts : list Z) (p : nat) (s : Z) :
  Forall2 is_start groups starts -> starts !! p = Some s ->
  exists g, getitem groups (Z.of_nat p) = Ok g /\ getitem g 0 = Ok s.
Proof.
  intros Hall Hs.
  destruct (Forall2_lookup_r _ _ _ _ _ Hall Hs) as (g & Hg & Hstart).
  exists g. split; [by apply getitem_nat | by apply getitem_start].
Qed.

Lemma find_group_index_eval (groups : list (list Z)) (starts : list Z)
      (x PAGE : Z) (pos : nat) :
  groups <> [] ->
  Forall2 is_start groups starts ->
  bisect_left starts x = Ok (Z.of_nat pos) ->
  (pos <= length starts)%nat ->
  find_group_index groups x PAGE = Ok (locate starts x PAGE pos).
Proof.
  intros Hne Hall Hpos Hle.
  pose proof (Forall2_length _ _ _ Hall) as Hlen.
  assert (Hbody : find_group_index groups x PAGE =
    (starts <- comprehension (fun g => getitem g 0) groups ;;
     pos <- bisect_left starts x ;;
     candidates <-
        (if pos <? len groups then
           g <- getitem groups pos ;;
           s <- getitem g 0 ;;
           if Z.abs (s - x) <? PAGE then Ok ([] ++ [pos])
           else Ok []
         else Ok []) ;;
      candidates <-
        (if pos >? 0 then
           g <- getitem groups (pos - 1) ;;
           s <- getitem g 0 ;;
           if Z.abs (s - x) <? PAGE then Ok (candidates ++ [pos - 1])
           else Ok candidates
         else Ok candidates) ;;
      match candidates with
      | [] => Ok (-1)
      | _ :: _ => Py.min candidates
      end)).
  { destruct groups; [done | reflexivity]. }
  rewrite Hbody, (comprehension_starts _ _ Hall). cbn [bind].
  rewrite Hpos. cbn [bind]. unfold locate.
  assert (Hfirst :
    (if Z.of_nat pos <? len groups then
       g <- getitem groups (Z.of_nat pos) ;;
       s <- getitem g 0 ;;
       if Z.abs (s - x) <? PAGE then Ok ([] ++ [Z.of_nat pos]) else Ok []
     else Ok []) =
    Ok (if qualifies PAGE x (starts !! pos) then [Z.of_nat pos] else [])).
  { unfold len. destruct (starts !! pos) as [s|] eqn:Hs.
    - pose proof (lookup_lt_Some _ _ _ Hs).
      destruct (Z.ltb_spec (Z.of_nat pos) (Z.of_nat (length groups))); [|lia].
      destruct (getitem_group _ _ _ _ Hall Hs) as (g & -> & Hg).
      cbn [bind qualifies]. rewrite Hg. cbn [bind].
      by destruct (Z.abs (s - x) <? PAGE).
    - pose proof (lookup_ge_None_1 _ _ Hs).
      by destruct (Z.ltb_spec (Z.of_nat pos) (Z.of_nat (length groups)));
        [lia|]. }
  rewrite Hfirst. cbn [bind]. clear Hfirst Hbody.
  destruct pos as [|p].
  - change (Z.of_nat 0 >? 0) with false. cbv iota.
    by destruct (qualifies PAGE x (starts !! 0%nat)).
  - destruct (Z.gtb_spec (Z.of_nat (S p)) 0); [|lia].
    replace (Z.of_nat (S p) - 1) with (Z.of_nat p) by lia.
    destruct (lookup_lt_is_Some_2 starts p) as [s Hs]; [lia|].
    destruct (getitem_group _ _ _ _ Hall Hs) as (g & -> & Hg).
    cbn [bind]. rewrite Hg, Hs. cbn [bind qualifies].
    destruct (qualifies PAGE x (starts !! S p)), (Z.abs (s - x) <? PAGE);
      cbn [app bind Py.min fold_left]; f_equal; lia.
Qed.


(** ** The group builder *)

(** C1 (partition completeness).  For every non-empty input sequence and
    every gap tolerance, [get_groups] returns a list of groups, and
    concatenating these groups in order gives back the input sequence
    exactly; no group is empty. *)
Theorem get_groups_partition (nums : list Z) (gap : Z) :
  nums <> [] ->
  exists groups,
    get_groups nums gap = Ok groups
    /\ concat groups = nums
    /\ Forall (fun g => g <> []) groups.
Proof.
  intros Hne. exists (groups_of gap nums). split_and!.
  - by apply get_groups_nonempty.
  - apply groups_of_concat.
  - apply groups_of_nonempty.
Qed.

Lemma get_groups_partition_witness :
  exists groups,
    get_groups [1; 2; 3; 10; 11; 50] 1 = Ok groups
    /\ concat groups = [1; 2; 3; 10; 11; 50]
    /\ Forall (fun g => g <> []) groups.
Proof.
  apply (get_groups_partition [1; 2; 3; 10; 11; 50] 1). discriminate.
Defined.

(** C2 (internal cohesion).  For every non-empty ascending input sequence
    and every gap tolerance [gap], every pair [(x, y)] of consecutive
    elements of every returned group satisfies [y - x <= gap].  (The proof
    does not use that the input is ascending.) *)
Theorem get_groups_cohesion (nums : list Z) (gap : Z) :
  nums <> [] ->
  Sorted Z.le nums ->
  exists groups,
    get_groups nums gap = Ok groups
    /\ forall g, In g groups ->
         forall (i : nat) (x y : Z),
           g !! i = Some x -> g !! S i = Some y -> y - x <= gap.
Proof.
  intros Hne _. exists (groups_of gap nums).
  split; [by apply get_groups_nonempty|].
  intros g Hg. pose proof (groups_of_cohesive gap nums) as Hall.
  rewrite List.Forall_forall in Hall. exact (Hall g Hg).
Qed.

Lemma get_groups_cohesion_witness :
  exists groups,
    get_groups [1; 2; 3; 10; 11; 50] 1 = Ok groups
    /\ forall g, In g groups ->
         forall (i : nat) (x y : Z),
           g !! i = Some x -> g !! S i = Some y -> y - x <= 1.
Proof.
  apply (get_groups_cohesion [1; 2; 3; 10; 11; 50] 1).
  - discriminate.
  - repeat constructor; lia.
Defined.

(** C3 (boundary invariant).  For every non-empty ascending input sequence
    and every gap tolerance [gap], whenever [A] and [B] are adjacent groups
    of the result, the first element of [B] minus the last element of [A]
    is strictly greater than [gap].  (The proof does not use that the input
    is ascending.) *)
Theorem get_groups_boundary (nums : list Z) (gap : Z) :
  nums <> [] ->
  Sorted Z.le nums ->
  exists groups,
    get_groups nums gap = Ok groups
    /\ forall (i : nat) (A B : list Z),
         groups !! i = Some A -> groups !! S i = Some B ->
         exists a b, last A = Some a /\ head B = Some b /\ b - a > gap.
Proof.
  intros Hne _. exists (groups_of gap nums).
  split; [by apply get_groups_nonempty | apply groups_of_separated].
Qed.

Lemma get_groups_boundary_witness :
  exists groups,
    get_groups [1; 2; 3; 10; 11; 50] 1 = Ok groups
    /\ forall (i : nat) (A B : list Z),
         groups !! i = Some A -> groups !! S i = Some B ->
         exists a b, last A = Some a /\ head B = Some b /\ b - a > 1.
Proof.
  apply (get_groups_boundary [1; 2; 3; 10; 11; 50] 1).
  - discriminate.
  - repeat constructor; lia.
Defined.

(** C4 (tolerance monotonicity).  For every non-empty ascending input
    sequence and every two gap tolerances [g1 < g2], [get_groups] with
    tolerance [g2] returns at most as many groups as with tolerance [g1].
    (The proof does not use that the input is ascending.) *)
Theorem get_groups_tolerance_monotone (nums : list Z) (g1 g2 : Z) :
  nums <> [] ->
  Sorted Z.le nums ->
  g1 < g2 ->
  exists groups1 groups2,
    get_groups nums g1 = Ok groups1
    /\ get_groups nums g2 = Ok groups2
    /\ (length groups2 <= length groups1)%nat.
Proof.
  intros Hne _ Hg. exists (groups_of g1 nums), (groups_of g2 nums).
  split_and!; [by apply get_groups_nonempty | by apply get_groups_nonempty |].
  apply groups_of_count_mono. lia.
Qed.

Lemma get_groups_tolerance_monotone_witness :
  exists groups1 groups2,
    get_groups [1; 2; 3; 10; 11; 50] 1 = Ok groups1
    /\ get_groups [1; 2; 3; 10; 11; 50] 10 = Ok groups2
    /\ (length groups2 <= length groups1)%nat.
Proof.
  apply (get_groups_tolerance_monotone [1; 2; 3; 10; 11; 50] 1 10).
  - discriminate.
  - repeat constructor; lia.
  - lia.
Defined.

(** C7, as the code has it.  On the empty input sequence [get_groups]
    raises the [IndexError] of the subscript [nums[0]] at line 57, whatever
    the gap tolerance. *)
Theorem get_groups_empty_input (gap : Z) : get_groups [] gap = Raise IndexError.
Proof. reflexivity. Qed.

(** C7 as stated fails: on the empty input the result is neither a named
    [EmptyInput] error nor the empty group list, but the raw index fault. *)
Lemma get_groups_empty_input_counterexample :
  get_groups [] 1 = Raise IndexError
  /\ get_groups [] 1 <> Raise (UserError "EmptyInput")
  /\ get_groups [] 1 <> Ok [].
Proof. split_and!; [reflexivity | discriminate | discriminate]. Qed.

(** ** The range classifier *)

Lemma classify_loop_ok (nums : list Z) :
  Forall divisible_high nums ->
  forall low high,
    for_each classify_body nums (low, high) =
    Ok (low ++ List.filter (fun x => x <? CUTOFF) nums,
        high ++ map rescale (List.filter (fun x => CUTOFF <=? x) nums)).
Proof.
  induction 1 as [|x nums Hx _ IH]; intros low high.
  - simpl. by rewrite !app_nil_r.
  - cbn [for_each List.filter]. unfold classify_body at 1.
    destruct (Z.ltb_spec x CUTOFF) as [Hlt|Hge].
    + destruct (Z.leb_spec CUTOFF x); [lia|].
      cbn [bind]. rewrite IH. by rewrite <- app_assoc.
    + destruct (Z.leb_spec CUTOFF x); [|lia].
      rewrite (Hx Hge). cbn [Z.eqb negb bind map]. rewrite IH.
      by rewrite <- app_assoc.
Qed.

Lemma classify_loop_fail (nums : list Z) :
  Exists invalid_high nums ->
  forall low high,
    for_each classify_body nums (low, high) = Raise AssertionError.
Proof.
  induction nums as [|x nums IH]; intros Hex low high.
  - by apply Exists_nil in Hex.
  - cbn [for_each]. unfold classify_body at 1.
    destruct (Z.ltb_spec x CUTOFF) as [Hlt|Hge].
    + cbn [bind]. apply IH. apply Exists_cons in Hex as [[Hx _]|Hex]; [lia|done].
    + destruct (Z.eqb_spec (x mod 4) 0) as [Hdiv|Hndiv]; [|done].
      cbn [negb bind]. apply IH.
      apply Exists_cons in Hex as [[_ Hx]|Hex]; [done|done].
Qed.

Lemma rescale_exact (x : Z) : x mod 4 = 0 -> 4 * (rescale x - CUTOFF) = x - CUTOFF.
Proof.
  intros Hx. unfold rescale.
  assert (Hc : (x - CUTOFF) mod 4 = 0).
  { unfold CUTOFF. rewrite Zminus_mod, Hx. reflexivity. }
  pose proof (Z.div_mod (x - CUTOFF) 4 ltac:(lia)). lia.
Qed.

(** C5 (range classification).  For every input sequence of non-negative
    integers in which every value at or above [CUTOFF] is divisible by 4,
    the classification loop of [main] ends with [low] holding exactly the
    values below [CUTOFF], unchanged and in input order, and [high] holding
    exactly the values at or above [CUTOFF], in input order, each replaced
    by [CUTOFF + (value - CUTOFF) / 4]; that division is exact. *)
Theorem main_classify_partition (nums : list Z) :
  Forall (fun x => 0 <= x) nums ->
  Forall divisible_high nums ->
  main_classify nums =
    Ok (List.filter (fun x => x <? CUTOFF) nums,
        map rescale (List.filter (fun x => CUTOFF <=? x) nums))
  /\ Forall (fun x => CUTOFF <= x -> 4 * (rescale x - CUTOFF) = x - CUTOFF)
            nums.
Proof.
  intros _ Hdiv. split.
  - unfold main_classify. by rewrite (classify_loop_ok nums Hdiv [] []).
  - eapply Forall_impl; [exact Hdiv|].
    intros x Hx Hge. apply rescale_exact. by apply Hx.
Qed.

Lemma main_classify_partition_witness :
  main_classify [100; 0x10000; 0x10008] = Ok ([100], [0x10000; 0x10002])
  /\ Forall (fun x => CUTOFF <= x -> 4 * (rescale x - CUTOFF) = x - CUTOFF)
            [100; 0x10000; 0x10008].
Proof.
  apply (main_classify_partition [100; 0x10000; 0x10008]).
  - repeat constructor; lia.
  - repeat constructor; intros _; reflexivity.
Defined.

(** C6, as the code has it.  An input that contains a value at or above
    [CUTOFF] that is not divisible by 4 makes the classification loop fail
    with the [AssertionError] of the [assert] at line 85, and no
    classification is produced; an input whose values at or above [CUTOFF]
    are all divisible by 4 raises no error. *)
Theorem main_classify_assertion (nums : list Z) :
  (Exists invalid_high nums -> main_classify nums = Raise AssertionError)
  /\ (Forall divisible_high nums ->
      exists low high, main_classify nums = Ok (low, high)).
Proof.
  split.
  - intros Hex. by apply classify_loop_fail.
  - intros Hdiv. unfold main_classify.
    rewrite (classify_loop_ok nums Hdiv [] []). by eexists _, _.
Qed.

Lemma main_classify_assertion_witness :
  main_classify [100; 0x10001; 0x10008] = Raise AssertionError
  /\ exists low high, main_classify [100; 0x10000; 0x10008] = Ok (low, high).
Proof.
  split.
  - apply (proj1 (main_classify_assertion [100; 0x10001; 0x10008])).
    apply Exists_cons_tl, Exists_cons_hd. split; [unfold CUTOFF; lia | discriminate].
  - apply (proj2 (main_classify_assertion [100; 0x10000; 0x10008])).
    repeat constructor; intros _; reflexivity.
Defined.

(** C6 as stated fails: the failure on the high key [0x10001] is the bare
    [AssertionError], not an error named [InvalidHighKey]. *)
Lemma main_classify_invalid_high_key_counterexample :
  main_classify [0x10001] = Raise AssertionError
  /\ main_classify [0x10001] <> Raise (UserError "InvalidHighKey").
Proof. split; [reflexivity | discriminate]. Qed.

(** ** The group locator *)

Lemma qualifies_true (PAGE x : Z) (start : option Z) :
  qualifies PAGE x start = true <->
  exists s, start = Some s /\ Z.abs (s - x) < PAGE.
Proof.
  destruct start as [s|]; simpl.
  - rewrite Z.ltb_lt. split; [by exists s | by intros (s' & [= <-] & H)].
  - split; [done | by intros (s & ? & _)].
Qed.

Lemma bisect_left_total (starts : list Z) (x : Z) :
  exists pos : nat,
    bisect_left starts x = Ok (Z.of_nat pos) /\ (pos <= length starts)%nat.
Proof.
  pose proof (len_nonneg starts) as Hlen.
  destruct (bisect_loop_total starts x _ 0 (len starts) eq_refl)
    as (r & Hr & Hb); [lia..|].
  exists (Z.to_nat r). unfold bisect_left, len in *.
  rewrite Z2Nat.id by lia. split; [done | lia].
Qed.

Lemma bisect_left_sorted (starts : list Z) (x : Z) :
  Sorted Z.le starts ->
  exists pos : nat,
    bisect_left starts x = Ok (Z.of_nat pos) /\ insertion_point starts x pos.
Proof.
  intros Hs. pose proof (len_nonneg starts) as Hlen.
  apply (bisect_loop_sorted starts x Hs _ 0 (len starts) eq_refl); try lia.
  intros i s Hi Hge. apply lookup_lt_Some in Hi. unfold len in Hge. lia.
Qed.

Lemma nonempty_groups_starts (groups : list (list Z)) :
  Forall (fun g => g <> []) groups ->
  exists starts, Forall2 is_start groups starts.
Proof.
  induction 1 as [|g groups Hg _ (starts & IH)]; [by exists []|].
  destruct g as [|s g]; [done|]. exists (s :: starts). by constructor.
Qed.

Lemma locate_range (starts : list Z) (x PAGE : Z) (pos : nat) :
  (pos <= length starts)%nat ->
  locate starts x PAGE pos = -1 \/ 0 <= locate starts x PAGE pos < len starts.
Proof.
  intros Hle. unfold locate, len.
  destruct (qualifies PAGE x (starts !! pos)) eqn:Hq.
  - apply qualifies_true in Hq as (s & Hs%lookup_lt_Some & _).
    destruct pos as [|p]; [right; lia|].
    destruct (qualifies PAGE x (starts !! p)); right; lia.
  - destruct pos as [|p]; [by left|].
    destruct (qualifies PAGE x (starts !! p)); [right; lia | by left].
Qed.

Lemma Sorted_lt_lookup (l : list Z) :
  Sorted Z.lt l ->
  forall (i j : nat) (u v : Z),
    l !! i = Some u -> l !! j = Some v -> (i < j)%nat -> u < v.
Proof.
  intros Hs. apply Sorted_StronglySorted in Hs; [|intros ? ? ?; lia].
  induction Hs as [|a l Hs IH Hall]; intros i j u v Hi Hj Hij; [done|].
  destruct i as [|i], j as [|j]; simpl in Hi, Hj; try lia.
  - injection Hi as <-. exact (Forall_lookup_1 _ _ _ _ Hall Hj).
  - apply (IH i j); [done | done | lia].
Qed.

Lemma Sorted_lt_le (l : list Z) : Sorted Z.lt l -> Sorted Z.le l.
Proof.
  induction 1 as [|a l _ IH Hhd]; constructor; [done|].
  destruct Hhd; constructor. lia.
Qed.

Lemma insertion_point_own_start (starts : list Z) (i pos : nat) (s : Z) :
  Sorted Z.lt starts ->
  starts !! i = Some s ->
  insertion_point starts s pos ->
  pos = i.
Proof.
  intros Hs Hi (Hle & Hbelow & Habove).
  destruct (Nat.lt_trichotomy pos i) as [Hlt|[->|Hgt]]; [|done|].
  - pose proof (lookup_lt_Some _ _ _ Hi).
    destruct (lookup_lt_is_Some_2 starts pos) as [u Hu]; [lia|].
    pose proof (Sorted_lt_lookup starts Hs pos i u s Hu Hi Hlt).
    pose proof (Habove pos u Hu ltac:(lia)). lia.
  - pose proof (Hbelow i s Hi Hgt). lia.
Qed.

Lemma adjacent_distances_lookup (starts : list Z) (p : nat) (a b : Z) :
  starts !! p = Some a -> starts !! S p = Some b ->
  adjacent_distances starts !! p = Some (b - a).
Proof.
  intros Ha Hb. unfold adjacent_distances.
  rewrite lookup_zip_with, Ha, lookup_drop. simpl. by rewrite Hb.
Qed.

(** C8 (candidate selection).  For every non-empty group list whose start
    table [starts] is ascending, every page size and every query [x], let
    [pos] be the leftmost insertion position of [x] in [starts].  The
    candidates are the group at [pos], when [pos] is in bounds, and the
    group at [pos - 1], when [pos > 0]; a candidate qualifies exactly when
    [abs (start - x) < PAGE], strictly.  [find_group_index] returns
    [pos - 1] if both qualify, the index of the one that qualifies if only
    one does, and [-1] if neither does. *)
Theorem find_group_index_candidates
        (groups : list (list Z)) (starts : list Z) (x PAGE : Z) :
  groups <> [] ->
  Forall2 is_start groups starts ->
  Sorted Z.le starts ->
  exists (pos : nat) (r : Z),
    insertion_point starts x pos
    /\ find_group_index groups x PAGE = Ok r
    /\ let at_pos :=
         exists s, starts !! pos = Some s /\ Z.abs (s - x) < PAGE in
       let before :=
         exists p s, pos = S p /\ starts !! p = Some s
                     /\ Z.abs (s - x) < PAGE in
       (at_pos /\ before -> r = Z.of_nat pos - 1)
       /\ (at_pos /\ ~ before -> r = Z.of_nat pos)
       /\ (~ at_pos /\ before -> r = Z.of_nat pos - 1)
       /\ (~ at_pos /\ ~ before -> r = -1).
Proof.
  intros Hne Hall Hs.
  destruct (bisect_left_sorted starts x Hs) as (pos & Hpos & Hins).
  exists pos, (locate starts x PAGE pos).
  split; [done|]. split.
  { apply (find_group_index_eval groups starts x PAGE pos); try done.
    by destruct Hins. }
  intros at_pos before.
  assert (Hp : qualifies PAGE x (starts !! pos) = true <-> at_pos)
    by apply qualifies_true.
  assert (Hb : match pos with
               | O => false
               | S p => qualifies PAGE x (starts !! p)
               end = true <-> before).
  { subst before. destruct pos as [|p].
    - split; [done | by intros (p & s & ? & _)].
    - rewrite qualifies_true. split.
      + intros (s & ? & ?). by exists p, s.
      + intros (p' & s & [= <-] & ? & ?). by exists s. }
  unfold locate.
  destruct (qualifies PAGE x (starts !! pos)),
           (match pos with
            | O => false
            | S p => qualifies PAGE x (starts !! p)
            end);
    split_and!; intros [? ?]; try reflexivity; exfalso;
    intuition discriminate.
Qed.

Lemma find_group_index_candidates_witness :
  exists (pos : nat) (r : Z),
    insertion_point [100; 2000; 5000] 900 pos
    /\ find_group_index [[100]; [2000]; [5000]] 900 1024 = Ok r
    /\ let at_pos :=
         exists s, [100; 2000; 5000] !! pos = Some s
                   /\ Z.abs (s - 900) < 1024 in
       let before :=
         exists p s, pos = S p /\ [100; 2000; 5000] !! p = Some s
                     /\ Z.abs (s - 900) < 1024 in
       (at_pos /\ before -> r = Z.of_nat pos - 1)
       /\ (at_pos /\ ~ before -> r = Z.of_nat pos)
       /\ (~ at_pos /\ before -> r = Z.of_nat pos - 1)
       /\ (~ at_pos /\ ~ before -> r = -1).
Proof.
  apply (find_group_index_candidates
           [[100]; [2000]; [5000]] [100; 2000; 5000] 900 1024).
  - discriminate.
  - repeat constructor.
  - repeat constructor; lia.
Defined.

(** C9, as the code has it (locator consistency).  For every non-empty
    group list whose start table is strictly ascending and every positive
    page size [PAGE] that does not exceed any distance between adjacent
    starts, querying [find_group_index] with the start of a group returns
    the index of that group. *)
Theorem find_group_index_own_start
        (groups : list (list Z)) (starts : list Z) (PAGE : Z) :
  groups <> [] ->
  Forall2 is_start groups starts ->
  Sorted Z.lt starts ->
  0 < PAGE ->
  Forall (fun d => PAGE <= d) (adjacent_distances starts) ->
  forall (i : nat) (s : Z),
    starts !! i = Some s ->
    find_group_index groups s PAGE = Ok (Z.of_nat i).
Proof.
  intros Hne Hall Hs HPAGE Hdist i s Hi.
  destruct (bisect_left_sorted starts s (Sorted_lt_le _ Hs))
    as (pos & Hpos & Hins).
  assert (pos = i) as -> by exact (insertion_point_own_start _ _ _ _ Hs Hi Hins).
  rewrite (find_group_index_eval groups starts s PAGE i); try done.
  2:{ by destruct Hins. }
  f_equal. unfold locate. rewrite Hi. cbn [qualifies].
  replace (s - s) with 0 by lia.
  destruct (Z.ltb_spec (Z.abs 0) PAGE) as [_|Habs]; [|simpl in Habs; lia].
  destruct i as [|p]; [done|].
  destruct (lookup_lt_is_Some_2 starts p) as [a Ha].
  { apply lookup_lt_Some in Hi. lia. }
  rewrite Ha. cbn [qualifies].
  pose proof (adjacent_distances_lookup starts p a s Ha Hi) as Hd.
  pose proof (Forall_lookup_1 _ _ _ _ Hdist Hd) as Hge. cbv beta in Hge.
  destruct (Z.ltb_spec (Z.abs (a - s)) PAGE) as [Hlt|_]; [lia|done].
Qed.

Lemma find_group_index_own_start_witness :
  find_group_index [[100; 101]; [2000]; [5000]] 2000 1024 = Ok 1.
Proof.
  apply (find_group_index_own_start
           [[100; 101]; [2000]; [5000]] [100; 2000; 5000] 1024
           ltac:(discriminate) ltac:(repeat constructor)
           ltac:(repeat constructor; lia) ltac:(lia)
           ltac:(repeat constructor; lia) 1%nat 2000).
  reflexivity.
Defined.

(** C9 as stated fails.  With starts [100; 600; 5000] and the default page
    size 1024, which exceeds the minimum distance 500 between adjacent
    starts, the query 600 (the start of group 1) returns index 0: the
    earlier group also lies within the window and is preferred. *)
Lemma find_group_index_own_start_counterexample :
  [[100; 101]; [600]; [5000]] <> []
  /\ Forall2 is_start [[100; 101]; [600]; [5000]] [100; 600; 5000]
  /\ Sorted Z.lt [100; 600; 5000]
  /\ Py.min (adjacent_distances [100; 600; 5000]) = Ok 500
  /\ 500 < PAGE
  /\ [100; 600; 5000] !! 1%nat = Some 600
  /\ find_group_index [[100; 101]; [600]; [5000]] 600 PAGE = Ok 0
  /\ find_group_index [[100; 101]; [600]; [5000]] 600 PAGE
     <> Ok (Z.of_nat 1).
Proof.
  split_and!; try reflexivity; try discriminate.
  - repeat constructor.
  - repeat constructor; lia.
Qed.

(** C10, as the code has it (result range).  For every group list whose
    groups are all non-empty (the empty group list included), every page
    size and every query, [find_group_index] returns without raising, and
    its result is either [-1] or an index [i] with [0 <= i < len groups];
    on the empty group list the result is [-1]. *)
Theorem find_group_index_range (groups : list (list Z)) (x PAGE : Z) :
  Forall (fun g => g <> []) groups ->
  exists r,
    find_group_index groups x PAGE = Ok r
    /\ (r = -1 \/ 0 <= r < len groups)
    /\ (groups = [] -> r = -1).
Proof.
  intros Hall. destruct (decide (groups = [])) as [->|Hne].
  { exists (-1). split_and!; [done | by left | done]. }
  destruct (nonempty_groups_starts groups Hall) as (starts & Hst).
  destruct (bisect_left_total starts x) as (pos & Hpos & Hle).
  exists (locate starts x PAGE pos). split_and!; [| |done].
  - by apply (find_group_index_eval groups starts x PAGE pos).
  - unfold len. rewrite (Forall2_length _ _ _ Hst).
    by apply locate_range.
Qed.

Lemma find_group_index_range_witness :
  exists r,
    find_group_index [[100; 101]; [2000]; [5000]] 900 1024 = Ok r
    /\ (r = -1 \/ 0 <= r < len [[100; 101]; [2000]; [5000]])
    /\ ([[100; 101]; [2000]; [5000]] = [] -> r = -1).
Proof.
  apply (find_group_index_range [[100; 101]; [2000]; [5000]] 900 1024).
  repeat constructor; discriminate.
Defined.

(** C10 as stated fails: on a list that holds an empty group the subscript
    [g[0]] of line 19 raises [IndexError], so no result is returned,
    neither [-1] nor an index. *)
Lemma find_group_index_range_counterexample :
  find_group_index [[100]; []; [5000]] 900 1024 = Raise IndexError
  /\ find_group_index [[100]; []; [5000]] 900 1024 <> Ok (-1)
  /\ ~ (exists r, find_group_index [[100]; []; [5000]] 900 1024 = Ok r).
Proof.
  split_and!; [reflexivity | discriminate | by intros [r Hr]].
Qed.

(** Building the start table fails on the list that holds one empty group,
    whatever the query and the page size. *)
Lemma find_group_index_empty_group (x PAGE : Z) :
  find_group_index [[]] x PAGE = Raise IndexError.
Proof. reflexivity. Qed.

(** ** Bytes and slices *)

Lemma byte_int_range (b : byte) : 0 <= byte_int b < 256.
Proof.
  unfold byte_int. pose proof (Byte.to_N_bounded b). lia.
Qed.

Lemma byte_int_of_int (z : Z) : byte_int (byte_of_int z) = z mod 256.
Proof.
  unfold byte_int, byte_of_int.
  pose proof (Z.mod_pos_bound z 256 ltac:(lia)) as Hz.
  destruct (Byte.of_N (Z.to_N (z mod 256))) as [b|] eqn:Hb.
  - apply Byte.to_of_N in Hb. simpl. rewrite Hb. lia.
  - apply Byte.of_N_None_iff in Hb. lia.
Qed.

Lemma byte_of_int_int (b : byte) : byte_of_int (byte_int b) = b.
Proof.
  unfold byte_of_int. pose proof (byte_int_range b) as Hb.
  rewrite Z.mod_small by lia. unfold byte_int. rewrite N2Z.id.
  by rewrite Byte.of_to_N.
Qed.

Lemma byte_of_int_mod (z : Z) : byte_of_int (z mod 256) = byte_of_int z.
Proof. unfold byte_of_int. by rewrite Z.mod_mod by lia. Qed.

Lemma from_bytes_little_range (bs : list byte) :
  0 <= from_bytes_little bs < 256 ^ len bs.
Proof.
  induction bs as [|b bs IH].
  - unfold len. simpl. lia.
  - cbn [from_bytes_little]. pose proof (byte_int_range b).
    replace (len (b :: bs)) with (Z.succ (len bs)) by (unfold len; simpl; lia).
    rewrite Z.pow_succ_r by apply len_nonneg. lia.
Qed.

Lemma le_bytes_from_bytes (bs : list byte) :
  le_bytes (length bs) (from_bytes_little bs) = bs.
Proof.
  induction bs as [|b bs IH]; [done|].
  cbn [length le_bytes from_bytes_little]. pose proof (byte_int_range b).
  f_equal.
  - rewrite <- byte_of_int_mod.
    replace ((byte_int b + 256 * from_bytes_little bs) mod 256)
      with (byte_int b).
    + apply byte_of_int_int.
    + rewrite (Z.mul_comm 256), Z.mod_add by lia.
      by rewrite Z.mod_small by lia.
  - replace ((byte_int b + 256 * from_bytes_little bs) / 256)
      with (from_bytes_little bs); [done|].
    rewrite (Z.mul_comm 256), Z.div_add by lia.
    rewrite (Z.div_small (byte_int b)) by lia. lia.
Qed.

Lemma from_bytes_le_bytes (n : nat) :
  forall x, 0 <= x < 256 ^ Z.of_nat n -> from_bytes_little (le_bytes n x) = x.
Proof.
  induction n as [|n IH]; intros x Hx.
  - simpl in *. lia.
  - cbn [le_bytes from_bytes_little]. rewrite byte_int_of_int.
    rewrite Nat2Z.inj_succ, Z.pow_succ_r in Hx by lia.
    rewrite IH.
    + pose proof (Z.div_mod x 256 ltac:(lia)). lia.
    + split; [apply Z.div_pos; lia|].
      apply Z.div_lt_upper_bound; lia.
Qed.

Lemma length_le_bytes (n : nat) (x : Z) : length (le_bytes n x) = n.
Proof. revert x. induction n as [|n IH]; intros x; simpl; by rewrite ?IH. Qed.

Lemma bytes_byte_int (bs : list byte) : bytes (map byte_int bs) = Ok bs.
Proof.
  induction bs as [|b bs IH]; [done|].
  cbn [map bytes]. pose proof (byte_int_range b).
  destruct (Z.ltb_spec (byte_int b) 0); [lia|].
  destruct (Z.leb_spec 256 (byte_int b)); [lia|].
  cbn [orb]. rewrite IH. cbn [bind]. by rewrite byte_of_int_int.
Qed.

Lemma getslice_nonneg {A} (l : list A) (a b : Z) :
  0 <= a <= b ->
  getslice l a b = take (Z.to_nat (b - a)) (drop (Z.to_nat a) l).
Proof.
  intros Hab. unfold getslice, slice_bound, len.
  destruct (Z.ltb_spec a 0); [lia|]. destruct (Z.ltb_spec b 0); [lia|].
  destruct (Z.le_gt_cases (Z.of_nat (length l)) a) as [Ha|Ha].
  - rewrite !drop_ge by lia. by rewrite !take_nil.
  - rewrite (Z.min_l a) by lia.
    destruct (Z.le_gt_cases (Z.of_nat (length l)) b) as [Hb|Hb].
    + rewrite (Z.min_r b) by lia.
      rewrite !take_ge; [done | rewrite length_drop; lia | rewrite length_drop; lia].
    + by rewrite (Z.min_l b) by lia.
Qed.

Lemma setslice_in_range {A} (l : list A) (a b : Z) (v : list A) :
  0 <= a <= b -> b <= len l ->
  setslice l a b v =
  take (Z.to_nat a) l ++ v ++ drop (Z.to_nat b) l.
Proof.
  intros Hab Hb. unfold setslice, slice_bound.
  destruct (Z.ltb_spec a 0); [lia|]. destruct (Z.ltb_spec b 0); [lia|].
  by rewrite (Z.min_l a), (Z.min_l b), (Z.max_r a b) by lia.
Qed.

Lemma range_succ (n : Z) :
  0 <= n -> range (Z.succ n) = 0 :: map Z.succ (range n).
Proof.
  intros Hn. unfold range. rewrite Z2Nat.inj_succ by lia.
  cbn [seq map]. f_equal. rewrite <- seq_shift, !map_map.
  apply map_ext. intros i. lia.
Qed.

Lemma main_read_short (raw : list byte) :
  (length raw < 4)%nat -> main_read raw = [].
Proof.
  intros H. unfold main_read, len.
  by rewrite Z.div_small by lia.
Qed.

Lemma main_read_chunk (chunk raw : list byte) :
  length chunk = 4%nat ->
  main_read (chunk ++ raw) = from_bytes_little chunk :: main_read raw.
Proof.
  intros Hc. unfold main_read.
  rewrite len_app. replace (len chunk) with (1 * 4) by (unfold len; lia).
  rewrite Z.div_add_l by lia.
  assert (Hq : 0 <= len raw / 4) by (apply Z.div_pos; [apply len_nonneg | lia]).
  replace (1 + len raw / 4) with (Z.succ (len raw / 4)) by lia.
  rewrite range_succ by done. cbn [map]. f_equal.
  - rewrite getslice_nonneg by lia.
    change (Z.to_nat ((0 + 1) * 4 - 0 * 4)) with 4%nat.
    change (Z.to_nat (0 * 4)) with 0%nat.
    by rewrite drop_0, <- Hc, take_app_length.
  - rewrite map_map. apply map_ext_in. intros i Hi.
    assert (0 <= i).
    { unfold range in Hi. apply in_map_iff in Hi as (k & <- & _). lia. }
    rewrite !getslice_nonneg by lia.
    replace (Z.to_nat (Z.succ i * 4)) with (length chunk + Z.to_nat (i * 4))%nat
      by lia.
    rewrite drop_app_add' by done.
    do 2 f_equal. lia.
Qed.

(** ** The key file: encoder and decoder *)

Lemma to_bytes_little_u32 (x : Z) :
  in_u32 x -> to_bytes_little x 4 = Return (le_bytes 4 x).
Proof.
  intros [Hlo Hhi]. unfold to_bytes_little.
  destruct (Z.ltb_spec x 0); [lia|].
  change (256 ^ Z.of_nat 4) with (2 ^ 32).
  by destruct (Z.leb_spec (2 ^ 32) x); [lia|].
Qed.

Lemma to_bytes_little_overflow (x : Z) :
  ~ in_u32 x -> to_bytes_little x 4 = Throw OverflowError.
Proof.
  intros Hx. unfold to_bytes_little, in_u32 in *.
  destruct (Z.ltb_spec x 0); [done|].
  change (256 ^ Z.of_nat 4) with (2 ^ 32).
  by destruct (Z.leb_spec (2 ^ 32) x); [|lia].
Qed.

Lemma process_raw_text_loop_ok (nums : list Z) :
  Forall in_u32 nums ->
  forall (i : Z) (filled : list Z),
    len filled = i * 4 ->
    process_raw_text_loop i nums
      (filled ++ replicate (4 * length nums) 0) =
    Return (filled ++ map byte_int (le_image nums)).
Proof.
  induction 1 as [|x nums Hx _ IH]; intros i filled Hlen.
  - simpl. done.
  - cbn [process_raw_text_loop]. rewrite (to_bytes_little_u32 x Hx).
    cbn [obind].
    assert (Hset :
      setslice (filled ++ replicate (4 * length (x :: nums)) 0)
               (i * 4) ((i + 1) * 4) (map byte_int (le_bytes 4 x)) =
      (filled ++ map byte_int (le_bytes 4 x))
        ++ replicate (4 * length nums) 0).
    { pose proof (len_nonneg filled).
      rewrite setslice_in_range.
      - rewrite <- Hlen. unfold len at 1. rewrite Nat2Z.id, take_app_length.
        replace (Z.to_nat ((i + 1) * 4)) with (length filled + 4)%nat
          by (unfold len in Hlen; lia).
        rewrite drop_app_add' by done.
        replace (4 * length (x :: nums))%nat with (4 + 4 * length nums)%nat
          by (simpl; lia).
        rewrite drop_replicate.
        replace (4 + 4 * length nums - 4)%nat with (4 * length nums)%nat by lia.
        by rewrite <- app_assoc.
      - lia.
      - rewrite len_app. unfold len at 2. rewrite length_replicate.
        simpl length. lia. }
    rewrite Hset, IH.
    + unfold le_image. cbn [map concat]. by rewrite map_app, <- app_assoc.
    + rewrite len_app. unfold len at 2.
      rewrite length_map, length_le_bytes. lia.
Qed.

Lemma process_raw_text_loop_overflow (nums : list Z) :
  Exists (fun x => ~ in_u32 x) nums ->
  forall (i : Z) (out_buf : list Z),
    process_raw_text_loop i nums out_buf = Throw OverflowError.
Proof.
  induction nums as [|x nums IH]; intros Hex i out_buf.
  - by apply Exists_nil in Hex.
  - cbn [process_raw_text_loop].
    destruct (decide (in_u32 x)) as [Hx|Hx].
    + rewrite (to_bytes_little_u32 x Hx). cbn [obind]. apply IH.
      by apply Exists_cons in Hex as [?|?].
    + by rewrite (to_bytes_little_overflow x Hx).
Qed.

Lemma process_raw_text_bytes_ok (nums : list Z) :
  Forall in_u32 nums -> process_raw_text_bytes nums = Return (le_image nums).
Proof.
  intros Hall. unfold process_raw_text_bytes.
  replace (Z.to_nat (len nums * 4)) with (4 * length nums)%nat
    by (unfold len; lia).
  pose proof (process_raw_text_loop_ok nums Hall 0 [] eq_refl) as Hloop.
  cbn [app] in Hloop. rewrite Hloop. cbn [obind].
  by rewrite bytes_byte_int.
Qed.

Lemma main_read_le_image (nums : list Z) :
  Forall in_u32 nums -> main_read (le_image nums) = nums.
Proof.
  induction 1 as [|x nums Hx _ IH]; [done|].
  unfold le_image. cbn [map concat].
  rewrite main_read_chunk by apply length_le_bytes.
  fold (le_image nums). rewrite IH. f_equal.
  apply from_bytes_le_bytes. exact Hx.
Qed.

Lemma length_le_image (nums : list Z) :
  length (le_image nums) = (4 * length nums)%nat.
Proof.
  induction nums as [|x nums IH]; [done|].
  unfold le_image in *. cbn [map concat].
  rewrite length_app, length_le_bytes, IH. simpl. lia.
Qed.

Lemma chunk_ind (P : list byte -> Prop) :
  (forall raw, (length raw < 4)%nat -> P raw) ->
  (forall chunk raw, length chunk = 4%nat -> P raw -> P (chunk ++ raw)) ->
  forall raw, P raw.
Proof.
  intros Hshort Hchunk raw.
  remember (length raw) as n eqn:Hn. revert raw Hn.
  induction n as [n IH] using lt_wf_ind. intros raw ->.
  destruct (Nat.lt_ge_cases (length raw) 4) as [Hlt|Hge]; [by apply Hshort|].
  rewrite <- (take_drop 4 raw). apply Hchunk.
  - rewrite length_take. lia.
  - apply (IH (length (drop 4 raw))); [|done]. rewrite length_drop. lia.
Qed.

Lemma main_read_u32 (raw : list byte) : Forall in_u32 (main_read raw).
Proof.
  induction raw as [raw Hshort|chunk raw Hc IH] using chunk_ind.
  - by rewrite main_read_short.
  - rewrite main_read_chunk by done. constructor; [|done].
    pose proof (from_bytes_little_range chunk) as Hr.
    unfold len in Hr. rewrite Hc in Hr. exact Hr.
Qed.

Lemma le_image_main_read (raw : list byte) :
  le_image (main_read raw) = take (Z.to_nat (len raw / 4 * 4)) raw.
Proof.
  induction raw as [raw Hshort|chunk raw Hc IH] using chunk_ind.
  - rewrite main_read_short by done. unfold len.
    by rewrite Z.div_small by lia.
  - rewrite main_read_chunk by done. unfold le_image. cbn [map concat].
    fold (le_image (main_read raw)). rewrite IH.
    rewrite <- Hc at 1. rewrite le_bytes_from_bytes.
    rewrite len_app. replace (len chunk) with (1 * 4) by (unfold len; lia).
    rewrite Z.div_add_l by lia.
    assert (0 <= len raw / 4) by (apply Z.div_pos; [apply len_nonneg | lia]).
    replace (Z.to_nat ((1 + len raw / 4) * 4))
      with (length chunk + Z.to_nat (len raw / 4 * 4))%nat by lia.
    by rewrite take_app_add'.
Qed.

(** X1 (key file round trip).  When every key fits in four bytes,
    [process_raw_text] writes four bytes per key, and the decoder of
    [main] reads exactly these keys back. *)
Theorem key_file_round_trip (nums : list Z) :
  Forall in_u32 nums ->
  exists raw,
    process_raw_text_bytes nums = Return raw
    /\ len raw = 4 * len nums
    /\ main_read raw = nums.
Proof.
  intros Hall. exists (le_image nums). split_and!.
  - by apply process_raw_text_bytes_ok.
  - unfold len. rewrite length_le_image. lia.
  - by apply main_read_le_image.
Qed.

Lemma key_file_round_trip_witness :
  exists raw,
    process_raw_text_bytes [100; 0x10000; 0x10008] = Return raw
    /\ len raw = 4 * len [100; 0x10000; 0x10008]
    /\ main_read raw = [100; 0x10000; 0x10008].
Proof.
  apply (key_file_round_trip [100; 0x10000; 0x10008]).
  repeat constructor; unfold in_u32; lia.
Defined.

(** X2 (encoder overflow).  When some key is negative or does not fit in
    four bytes, [process_raw_text] fails with [OverflowError] and writes
    nothing, wherever the key stands in the list. *)
Theorem process_raw_text_overflow (nums : list Z) :
  Exists (fun x => x < 0 \/ 2 ^ 32 <= x) nums ->
  process_raw_text_bytes nums = Throw OverflowError.
Proof.
  intros Hex. unfold process_raw_text_bytes.
  rewrite process_raw_text_loop_overflow; [done|].
  eapply Exists_impl; [exact Hex|]. intros x Hx. cbv beta in Hx.
  unfold in_u32. lia.
Qed.

Lemma process_raw_text_overflow_witness :
  process_raw_text_bytes [100; 2 ^ 32; 7] = Throw OverflowError.
Proof.
  apply (process_raw_text_overflow [100; 2 ^ 32; 7]).
  apply Exists_cons_tl, Exists_cons_hd. right. lia.
Defined.

(** X3 (decoder shape).  On any file contents the decoder of [main]
    returns [len(raw_nums) // 4] keys, each of them in [0 .. 2^32 - 1]. *)
Theorem main_read_shape (raw : list byte) :
  len (main_read raw) = len raw / 4 /\ Forall in_u32 (main_read raw).
Proof.
  split; [|apply main_read_u32].
  unfold main_read, range, len. rewrite !length_map, length_seq.
  rewrite Z2Nat.id; [done|]. apply Z.div_pos; lia.
Qed.

(** X4 (re-encoding).  Encoding the keys decoded from any file contents
    gives the contents back, cut to the largest multiple of four bytes. *)
Theorem key_file_reencode (raw : list byte) :
  process_raw_text_bytes (main_read raw) =
  Return (take (Z.to_nat (len raw / 4 * 4)) raw).
Proof.
  rewrite process_raw_text_bytes_ok by apply main_read_u32.
  by rewrite le_image_main_read.
Qed.

(** X5 (trailing bytes).  Up to three bytes after the last complete group
    of four are ignored by the decoder of [main]. *)
Theorem main_read_trailing (raw tail : list byte) :
  len raw mod 4 = 0 ->
  (length tail < 4)%nat ->
  main_read (raw ++ tail) = main_read raw.
Proof.
  intros Hmod Htail. revert Hmod.
  induction raw as [raw Hshort|chunk raw Hc IH] using chunk_ind; intros Hmod.
  - assert (raw = []) as ->.
    { unfold len in Hmod. rewrite Z.mod_small in Hmod by lia.
      destruct raw; [done | simpl length in Hmod; lia]. }
    by rewrite !main_read_short by (simpl; lia).
  - rewrite <- app_assoc.
    rewrite (main_read_chunk chunk (raw ++ tail)),
            (main_read_chunk chunk raw) by done.
    f_equal. apply IH.
    rewrite len_app in Hmod.
    replace (len chunk) with (1 * 4) in Hmod by (unfold len; lia).
    by rewrite Z.add_comm, Z.mod_add in Hmod by lia.
Qed.

Lemma main_read_trailing_witness :
  main_read (le_image [100; 0x10008] ++ ["007"; "009"]%byte) =
  main_read (le_image [100; 0x10008]).
Proof.
  apply (main_read_trailing (le_image [100; 0x10008]) ["007"; "009"]%byte).
  - reflexivity.
  - simpl. lia.
Defined.

(** ** More on the range classifier *)

Lemma classify_cases (nums : list Z) :
  Forall divisible_high nums \/ Exists invalid_high nums.
Proof.
  induction nums as [|x nums [IH|IH]]; [by left | |].
  - destruct (Z.lt_ge_cases x CUTOFF) as [Hlt|Hge].
    + left. constructor; [|done]. intros Hge. lia.
    + destruct (Z.eq_dec (x mod 4) 0) as [Hdiv|Hndiv].
      * left. constructor; [by intros _ | done].
      * right. by apply Exists_cons_hd.
  - right. by apply Exists_cons_tl.
Qed.

Lemma main_classify_ok_eq (nums low high : list Z) :
  main_classify nums = Ok (low, high) ->
  Forall divisible_high nums
  /\ low = List.filter (fun x => x <? CUTOFF) nums
  /\ high = map rescale (List.filter (fun x => CUTOFF <=? x) nums).
Proof.
  intros Hok. destruct (classify_cases nums) as [Hall|Hex].
  - unfold main_classify in Hok.
    rewrite (classify_loop_ok nums Hall [] []) in Hok.
    cbn [app] in Hok. by injection Hok as <- <-.
  - unfold main_classify in Hok.
    by rewrite (classify_loop_fail nums Hex [] []) in Hok.
Qed.

Lemma rescale_ge (x : Z) : CUTOFF <= x -> CUTOFF <= rescale x.
Proof.
  intros Hx. unfold rescale.
  pose proof (Z.div_pos (x - CUTOFF) 4 ltac:(lia) ltac:(lia)). lia.
Qed.

Lemma rescale_le (x y : Z) : x <= y -> rescale x <= rescale y.
Proof.
  intros Hxy. unfold rescale.
  pose proof (Z.div_le_mono (x - CUTOFF) (y - CUTOFF) 4 ltac:(lia) ltac:(lia)).
  lia.
Qed.

Lemma rescale_lt (x y : Z) :
  x mod 4 = 0 -> y mod 4 = 0 -> x < y -> rescale x < rescale y.
Proof.
  intros Hx Hy Hxy.
  pose proof (rescale_exact x Hx). pose proof (rescale_exact y Hy). lia.
Qed.

Lemma high_sorted (R : Z -> Z -> Prop) (nums : list Z) :
  (forall x y, In x nums -> In y nums -> CUTOFF <= x -> CUTOFF <= y ->
               R x y -> R (rescale x) (rescale y)) ->
  StronglySorted R nums ->
  StronglySorted R
    (map rescale (List.filter (fun x => CUTOFF <=? x) nums)).
Proof.
  intros Hmono Hs. induction Hs as [|x nums Hs IH Hall]; [constructor|].
  assert (IH' : StronglySorted R
            (map rescale (List.filter (fun x => CUTOFF <=? x) nums))).
  { apply IH. intros a b Ha Hb. apply Hmono; by right. }
  cbn [List.filter]. destruct (Z.leb_spec CUTOFF x) as [Hx|Hx]; [|done].
  cbn [map]. constructor; [done|].
  rewrite List.Forall_forall in Hall |- *. intros h Hh.
  apply in_map_iff in Hh as (y & <- & Hy).
  apply filter_In in Hy as [Hy Hge]. apply Z.leb_le in Hge.
  apply Hmono; [by left | by right | done | done | by apply Hall].
Qed.

(** ** The report of [main] *)

Lemma fold_left_add (l : list Z) (a : Z) :
  fold_left Z.add l a = a + fold_left Z.add l 0.
Proof.
  revert a. induction l as [|x l IH]; intros a; cbn [fold_left]; [lia|].
  rewrite (IH (a + x)), (IH (0 + x)). lia.
Qed.

Lemma main_gaps_cons (g : list Z) (gs : list (list Z)) :
  main_gaps (g :: gs) = main_gaps [g] + main_gaps gs.
Proof.
  unfold main_gaps. cbn [flat_map]. rewrite app_nil_r.
  rewrite fold_left_app, fold_left_add. lia.
Qed.

Lemma main_gaps_single (a : Z) : main_gaps [[a]] = 0.
Proof. reflexivity. Qed.

Lemma main_gaps_pair (a b : Z) (l : list Z) :
  main_gaps [a :: b :: l] = (b - a - 1) + main_gaps [b :: l].
Proof.
  unfold main_gaps. cbn [flat_map]. rewrite !app_nil_r.
  change (drop 1 (a :: b :: l)) with (b :: l).
  cbn [combine map fold_left fst snd].
  rewrite fold_left_add. change (drop 1 (b :: l)) with l.
  destruct l; simpl; lia.
Qed.

(** The gap sum of the groups of [runs], one input element at a time. *)
Lemma runs_gaps_step (gap prev x : Z) (xs : list Z) :
  let G := fun p ys =>
    main_gaps ((p :: fst (runs gap p ys)) :: snd (runs gap p ys)) in
  G prev (x :: xs) =
  (if x - prev >? gap then 0 else x - prev - 1) + G x xs.
Proof.
  intros G. subst G. cbn beta. cbn [runs].
  destruct (runs gap x xs) as [c gs]. cbn [fst snd].
  destruct (x - prev >? gap); cbn [fst snd].
  - rewrite (main_gaps_cons [prev]), main_gaps_single. lia.
  - rewrite (main_gaps_cons (prev :: x :: c) gs), main_gaps_pair,
            (main_gaps_cons (x :: c) gs). lia.
Qed.

Lemma groups_of_cons (gap prev : Z) (xs : list Z) :
  groups_of gap (prev :: xs) =
  (prev :: fst (runs gap prev xs)) :: snd (runs gap prev xs).
Proof. unfold groups_of. by destruct (runs gap prev xs). Qed.

Lemma groups_of_gaps_step (gap prev x : Z) (xs : list Z) :
  main_gaps (groups_of gap (prev :: x :: xs)) =
  (if x - prev >? gap then 0 else x - prev - 1)
  + main_gaps (groups_of gap (x :: xs)).
Proof. rewrite !groups_of_cons. apply runs_gaps_step. Qed.

Lemma groups_of_length_step (gap prev x : Z) (xs : list Z) :
  len (groups_of gap (prev :: x :: xs)) =
  (if x - prev >? gap then 1 else 0) + len (groups_of gap (x :: xs)).
Proof.
  rewrite !groups_of_cons. cbn [runs].
  destruct (runs gap x xs) as [c gs]. unfold len.
  destruct (x - prev >? gap); cbn [fst snd length]; lia.
Qed.

Lemma groups_of_span_step (gap prev x : Z) (xs : list Z) :
  total_span (groups_of gap (prev :: x :: xs)) =
  (if x - prev >? gap then 1 else x - prev)
  + total_span (groups_of gap (x :: xs)).
Proof.
  rewrite !groups_of_cons. cbn [runs].
  destruct (runs gap x xs) as [c gs]. unfold total_span.
  destruct (x - prev >? gap); cbn [fst snd map foldr].
  - change (span [prev]) with (prev - prev + 1). lia.
  - unfold span at 1 3. cbn [head].
    change (last (prev :: x :: c)) with (last (x :: c)).
    destruct (last (x :: c)) eqn:Hlast; [lia|].
    by apply last_None in Hlast.
Qed.

Lemma groups_of_total_span (gap : Z) (xs : list Z) :
  forall prev,
    len (prev :: xs) + main_gaps (groups_of gap (prev :: xs)) =
    total_span (groups_of gap (prev :: xs)).
Proof.
  induction xs as [|x xs IH]; intros prev.
  { change (groups_of gap [prev]) with [[prev]]. rewrite main_gaps_single.
    unfold total_span, span, len. simpl. lia. }
  rewrite groups_of_gaps_step, groups_of_span_step, <- (IH x).
  unfold len. cbn [length]. destruct (x - prev >? gap); lia.
Qed.

Lemma groups_of_gaps_upper (gap : Z) (xs : list Z) :
  forall prev,
    1 <= len (groups_of gap (prev :: xs)) <= len (prev :: xs)
    /\ main_gaps (groups_of gap (prev :: xs)) <=
       (gap - 1) * (len (prev :: xs) - len (groups_of gap (prev :: xs))).
Proof.
  induction xs as [|x xs IH]; intros prev.
  - unfold len. simpl. rewrite main_gaps_single. lia.
  - rewrite groups_of_gaps_step, groups_of_length_step.
    destruct (IH x) as [Hlen Hup]. revert Hlen Hup.
    generalize (main_gaps (groups_of gap (x :: xs))) as G.
    generalize (len (groups_of gap (x :: xs))) as L.
    replace (len (prev :: x :: xs)) with (1 + len (x :: xs))
      by (unfold len; cbn [length]; lia).
    generalize (len (x :: xs)) as N. intros N L G Hlen Hup.
    destruct (Z.gtb_spec (x - prev) gap); nia.
Qed.

Lemma groups_of_gaps_lower (gap : Z) (xs : list Z) :
  forall prev,
    Sorted Z.le (prev :: xs) ->
    - (len (prev :: xs) - len (groups_of gap (prev :: xs))) <=
    main_gaps (groups_of gap (prev :: xs)).
Proof.
  induction xs as [|x xs IH]; intros prev Hs.
  - unfold len. simpl. rewrite main_gaps_single. lia.
  - rewrite groups_of_gaps_step, groups_of_length_step.
    apply Sorted_inv in Hs as [Hs Hhd]. apply HdRel_inv in Hhd.
    specialize (IH x Hs). revert IH.
    replace (len (prev :: x :: xs)) with (1 + len (x :: xs))
      by (unfold len; cbn [length]; lia).
    destruct (Z.gtb_spec (x - prev) gap); lia.
Qed.

Lemma groups_of_gaps_nonneg (gap : Z) (xs : list Z) :
  forall prev,
    Sorted Z.lt (prev :: xs) ->
    0 <= main_gaps (groups_of gap (prev :: xs)).
Proof.
  induction xs as [|x xs IH]; intros prev Hs.
  - change (groups_of gap [prev]) with [[prev]].
    rewrite main_gaps_single. lia.
  - rewrite groups_of_gaps_step.
    apply Sorted_inv in Hs as [Hs Hhd]. apply HdRel_inv in Hhd.
    specialize (IH x Hs). destruct (Z.gtb_spec (x - prev) gap); lia.
Qed.

Lemma groups_of_gaps_mono (g1 g2 : Z) (xs : list Z) :
  0 <= g1 -> g1 <= g2 ->
  forall prev,
    main_gaps (groups_of g1 (prev :: xs)) <=
    main_gaps (groups_of g2 (prev :: xs)).
Proof.
  intros H1 H12. induction xs as [|x xs IH]; intros prev.
  - change (groups_of g1 [prev]) with [[prev]].
    change (groups_of g2 [prev]) with [[prev]]. lia.
  - rewrite !groups_of_gaps_step. specialize (IH x).
    destruct (Z.gtb_spec (x - prev) g1), (Z.gtb_spec (x - prev) g2); lia.
Qed.

Lemma main_row_empty (max_dist : Z) :
  main_row [] max_dist = Throw (Core IndexError).
Proof. reflexivity. Qed.

Lemma main_row_eq (high : list Z) (max_dist : Z) :
  high <> [] ->
  main_row high max_dist =
  let groups := groups_of max_dist high in
  let gaps := main_gaps groups in
  if len high + gaps =? 0 then Throw ZeroDivisionError
  else Return (Row max_dist (len groups) gaps (len high + gaps)).
Proof.
  intros Hne. unfold main_row.
  by rewrite (get_groups_nonempty high max_dist Hne).
Qed.

Lemma main_row_inv (high : list Z) (max_dist : Z) (r : row) :
  main_row high max_dist = Return r ->
  high <> []
  /\ r = Row max_dist (len (groups_of max_dist high))
             (main_gaps (groups_of max_dist high))
             (len high + main_gaps (groups_of max_dist high)).
Proof.
  intros Hr. destruct high as [|x0 xs]; [done|]. split; [done|].
  rewrite main_row_eq in Hr by done. cbn zeta in Hr.
  destruct (_ =? 0); [done|]. by injection Hr as <-.
Qed.

Lemma main_row_ascending (high : list Z) (max_dist : Z) :
  high <> [] -> Sorted Z.le high ->
  exists r,
    main_row high max_dist = Return r
    /\ row_max_dist r = max_dist
    /\ 1 <= row_groups r <= row_total r
    /\ row_total r = len high + row_gaps r.
Proof.
  intros Hne Hs. destruct high as [|x0 xs]; [done|].
  rewrite main_row_eq by done. cbn zeta.
  pose proof (groups_of_gaps_upper max_dist xs x0) as [Hlen _].
  pose proof (groups_of_gaps_lower max_dist xs x0 Hs) as Hlow.
  destruct (Z.eqb_spec (len (x0 :: xs)
                        + main_gaps (groups_of max_dist (x0 :: xs))) 0);
    [lia|].
  eexists. split; [done|]. cbn [row_max_dist row_groups row_total row_gaps].
  lia.
Qed.

(** X6 (the divisor is the covered span).  For the groups built from any
    non-empty key list, the divisor [total = len(high) + gaps] of line 96
    is the sum over the groups of [last - first + 1]. *)
Theorem main_total_is_span (nums : list Z) (gap : Z) :
  nums <> [] ->
  exists groups,
    get_groups nums gap = Ok groups
    /\ len nums + main_gaps groups = total_span groups.
Proof.
  intros Hne. exists (groups_of gap nums).
  split; [by apply get_groups_nonempty|].
  destruct nums as [|x0 xs]; [done|]. apply groups_of_total_span.
Qed.

Lemma main_total_is_span_witness :
  exists groups,
    get_groups [1; 2; 3; 10; 11; 50] 10 = Ok groups
    /\ len [1; 2; 3; 10; 11; 50] + main_gaps groups = total_span groups.
Proof.
  apply (main_total_is_span [1; 2; 3; 10; 11; 50] 10). discriminate.
Defined.

(** X7 (bounds of the gap sum).  For ascending keys the groups number
    between one and the number of keys, and the gap sum of lines 90-94 lies
    between [-(n - k)] and [(gap - 1) * (n - k)], where [n] is the number of
    keys and [k] the number of groups. *)
Theorem main_gaps_bounds (nums : list Z) (gap : Z) :
  nums <> [] ->
  Sorted Z.le nums ->
  exists groups,
    get_groups nums gap = Ok groups
    /\ 1 <= len groups <= len nums
    /\ - (len nums - len groups) <= main_gaps groups
    /\ main_gaps groups <= (gap - 1) * (len nums - len groups).
Proof.
  intros Hne Hs. exists (groups_of gap nums).
  split; [by apply get_groups_nonempty|].
  destruct nums as [|x0 xs]; [done|].
  destruct (groups_of_gaps_upper gap xs x0) as [Hlen Hup].
  split_and!; [lia | lia | by apply groups_of_gaps_lower | done].
Qed.

Lemma main_gaps_bounds_witness :
  exists groups,
    get_groups [1; 2; 2; 10; 11; 50] 10 = Ok groups
    /\ 1 <= len groups <= len [1; 2; 2; 10; 11; 50]
    /\ - (len [1; 2; 2; 10; 11; 50] - len groups) <= main_gaps groups
    /\ main_gaps groups <= (10 - 1) * (len [1; 2; 2; 10; 11; 50] - len groups).
Proof.
  apply (main_gaps_bounds [1; 2; 2; 10; 11; 50] 10).
  - discriminate.
  - repeat constructor; lia.
Defined.

(** X8 (strictly ascending keys).  For strictly ascending keys the gap sum
    is never negative; at tolerance 1 it is zero. *)
Theorem main_gaps_strict (nums : list Z) (gap : Z) :
  nums <> [] ->
  Sorted Z.lt nums ->
  exists groups,
    get_groups nums gap = Ok groups
    /\ 0 <= main_gaps groups
    /\ (gap = 1 -> main_gaps groups = 0).
Proof.
  intros Hne Hs. exists (groups_of gap nums).
  split; [by apply get_groups_nonempty|].
  destruct nums as [|x0 xs]; [done|].
  pose proof (groups_of_gaps_nonneg gap xs x0 Hs) as Hlow.
  destruct (groups_of_gaps_upper gap xs x0) as [_ Hup].
  split; [done|]. intros ->. lia.
Qed.

Lemma main_gaps_strict_witness :
  exists groups,
    get_groups [1; 2; 3; 10; 11; 50] 1 = Ok groups
    /\ 0 <= main_gaps groups
    /\ (1 = 1 -> main_gaps groups = 0).
Proof.
  apply (main_gaps_strict [1; 2; 3; 10; 11; 50] 1).
  - discriminate.
  - repeat constructor; lia.
Defined.

(** X9 (trend of the report).  Of two lines that [main] prints for the same
    keys, the one with the larger tolerance reports at most as many groups
    and at least as large a gap sum and divisor, tolerances being
    non-negative. *)
Theorem main_row_trend (high : list Z) (d1 d2 : Z) (r1 r2 : row) :
  main_row high d1 = Return r1 ->
  main_row high d2 = Return r2 ->
  0 <= d1 -> d1 <= d2 ->
  row_groups r2 <= row_groups r1
  /\ row_gaps r1 <= row_gaps r2
  /\ row_total r1 <= row_total r2.
Proof.
  intros H1 H2 Hd1 Hd12.
  apply main_row_inv in H1 as [Hne ->]. apply main_row_inv in H2 as [_ ->].
  cbn [row_groups row_gaps row_total].
  pose proof (groups_of_count_mono d1 d2 high Hd12) as Hcount.
  destruct high as [|x0 xs]; [done|].
  pose proof (groups_of_gaps_mono d1 d2 xs Hd1 Hd12 x0) as Hgaps.
  unfold len. lia.
Qed.

Lemma main_row_trend_witness :
  row_groups (Row 10 2 6 12) <= row_groups (Row 1 3 0 6)
  /\ row_gaps (Row 1 3 0 6) <= row_gaps (Row 10 2 6 12)
  /\ row_total (Row 1 3 0 6) <= row_total (Row 10 2 6 12).
Proof.
  apply (main_row_trend [1; 2; 3; 10; 11; 50] 1 10);
    [reflexivity | reflexivity | lia | lia].
Defined.

(** X10 (no division by zero on ascending keys).  For non-empty ascending
    keys the report loop completes for every tuple of tolerances: each
    line carries its tolerance, at least one group, and a divisor [total]
    that is at least the number of groups, hence positive. *)
Theorem main_rows_ascending (high dists : list Z) :
  high <> [] ->
  Sorted Z.le high ->
  exists rows,
    main_rows high dists = Return rows
    /\ Forall2 (fun d r => row_max_dist r = d
                           /\ 1 <= row_groups r <= row_total r
                           /\ row_total r = len high + row_gaps r)
               dists rows.
Proof.
  intros Hne Hs. induction dists as [|d dists (rows & Hrows & Hall)].
  - exists []. split; [done | constructor].
  - destruct (main_row_ascending high d Hne Hs) as (r & Hr & Hprops).
    exists (r :: rows). cbn [main_rows]. rewrite Hr, Hrows. cbn [obind].
    split; [done | by constructor].
Qed.

Lemma main_rows_ascending_witness :
  exists rows,
    main_rows [1; 2; 3; 10; 11; 50] [1; 2; 4; 8; 16; 32; 64] = Return rows
    /\ Forall2 (fun d r => row_max_dist r = d
                           /\ 1 <= row_groups r <= row_total r
                           /\ row_total r = len [1; 2; 3; 10; 11; 50]
                                            + row_gaps r)
               [1; 2; 4; 8; 16; 32; 64] rows.
Proof.
  apply (main_rows_ascending [1; 2; 3; 10; 11; 50] [1; 2; 4; 8; 16; 32; 64]).
  - discriminate.
  - repeat constructor; lia.
Defined.

(** ** [main] from file contents to report *)

Lemma u32_cases (nums : list Z) :
  Forall in_u32 nums \/ Exists (fun x => ~ in_u32 x) nums.
Proof.
  induction nums as [|x nums [IH|IH]]; [by left | |].
  - destruct (decide (in_u32 x)); [left; by constructor|].
    right. by apply Exists_cons_hd.
  - right. by apply Exists_cons_tl.
Qed.

Lemma process_raw_text_bytes_inv (nums : list Z) (raw : list byte) :
  process_raw_text_bytes nums = Return raw ->
  Forall in_u32 nums /\ raw = le_image nums.
Proof.
  intros Hraw. destruct (u32_cases nums) as [Hall|Hex].
  - rewrite (process_raw_text_bytes_ok nums Hall) in Hraw.
    by injection Hraw as <-.
  - unfold process_raw_text_bytes in Hraw.
    by rewrite process_raw_text_loop_overflow in Hraw.
Qed.

Lemma filter_high_nil (nums : list Z) :
  Forall (fun x => x < CUTOFF) nums ->
  List.filter (fun x => CUTOFF <=? x) nums = [].
Proof.
  induction 1 as [|x nums Hx _ IH]; [done|].
  cbn [List.filter]. by destruct (Z.leb_spec CUTOFF x); [lia|].
Qed.

Lemma filter_high_nonempty (nums : list Z) :
  Exists (fun x => CUTOFF <= x) nums ->
  List.filter (fun x => CUTOFF <=? x) nums <> [].
Proof.
  induction 1 as [x nums Hx|x nums _ IH]; cbn [List.filter].
  - by destruct (Z.leb_spec CUTOFF x); [|lia].
  - by destruct (CUTOFF <=? x).
Qed.

Lemma Sorted_le_high (nums : list Z) :
  Sorted Z.le nums ->
  Sorted Z.le (map rescale (List.filter (fun x => CUTOFF <=? x) nums)).
Proof.
  intros Hs. apply StronglySorted_Sorted, high_sorted.
  - intros x y _ _ _ _. apply rescale_le.
  - apply Sorted_StronglySorted; [|done]. intros ? ? ?; lia.
Qed.

Lemma Sorted_lt_high (nums : list Z) :
  Forall divisible_high nums ->
  Sorted Z.lt nums ->
  Sorted Z.lt (map rescale (List.filter (fun x => CUTOFF <=? x) nums)).
Proof.
  intros Hdiv Hs. apply StronglySorted_Sorted, high_sorted.
  - rewrite List.Forall_forall in Hdiv.
    intros x y Hx Hy Hxc Hyc. apply rescale_lt; by apply Hdiv.
  - apply Sorted_StronglySorted; [|done]. intros ? ? ?; lia.
Qed.

(** X11 (no high key).  When no decoded key reaches [CUTOFF] (in
    particular on a file shorter than four bytes), [main] fails with the
    [IndexError] of [get_groups] on the empty list. *)
Theorem main_run_no_high_key (raw : list byte) :
  Forall (fun x => x < CUTOFF) (main_read raw) ->
  main_run raw = Throw (Core IndexError).
Proof.
  intros Hlow. unfold main_run.
  assert (Hdiv : Forall divisible_high (main_read raw)).
  { eapply Forall_impl; [exact Hlow|]. intros x Hx Hge. cbv beta in Hx. lia. }
  unfold main_classify. rewrite (classify_loop_ok _ Hdiv [] []).
  rewrite (filter_high_nil _ Hlow). reflexivity.
Qed.

Lemma main_run_no_high_key_witness :
  main_run (le_image [100; 200]) = Throw (Core IndexError).
Proof.
  apply (main_run_no_high_key (le_image [100; 200])).
  repeat constructor.
Defined.

(** X12 (invalid high key).  When some decoded key is at or above [CUTOFF]
    and not divisible by 4, [main] fails with [AssertionError] before any
    line is printed. *)
Theorem main_run_invalid_key (raw : list byte) :
  Exists invalid_high (main_read raw) ->
  main_run raw = Throw (Core AssertionError).
Proof.
  intros Hex. unfold main_run, main_classify.
  by rewrite (classify_loop_fail _ Hex [] []).
Qed.

Lemma main_run_invalid_key_witness :
  main_run (le_image [100; 0x10001]) = Throw (Core AssertionError).
Proof.
  apply (main_run_invalid_key (le_image [100; 0x10001])).
  change (main_read (le_image [100; 0x10001])) with [100; 0x10001].
  apply Exists_cons_tl, Exists_cons_hd.
  split; [unfold CUTOFF; lia | discriminate].
Defined.

(** X13 (from key list to report).  For an ascending key list whose keys
    fit in four bytes, whose keys at or above [CUTOFF] are divisible by 4
    and which has at least one such key, [main] run on the file written by
    [process_raw_text] prints its seven lines, for the tolerances
    1, 2, 4, 8, 16, 32, 64 in this order, each with at least one group and
    a positive divisor. *)
Theorem main_run_after_process_raw_text (nums : list Z) (raw : list byte) :
  process_raw_text_bytes nums = Return raw ->
  Sorted Z.le nums ->
  Forall divisible_high nums ->
  Exists (fun x => CUTOFF <= x) nums ->
  exists rows,
    main_run raw = Return rows
    /\ map row_max_dist rows = [1; 2; 4; 8; 16; 32; 64]
    /\ Forall (fun r => 1 <= row_groups r <= row_total r) rows.
Proof.
  intros Hraw Hs Hdiv Hex.
  apply process_raw_text_bytes_inv in Hraw as [Hu32 ->].
  unfold main_run. rewrite (main_read_le_image nums Hu32).
  unfold main_classify. rewrite (classify_loop_ok nums Hdiv [] []).
  cbn [app lift obind].
  destruct (main_rows_ascending
              (map rescale (List.filter (fun x => CUTOFF <=? x) nums))
              [1; 2; 4; 8; 16; 32; 64])
    as (rows & Hrows & Hall).
  { intros Hnil. apply fmap_nil_inv in Hnil.
    by apply (filter_high_nonempty nums Hex). }
  { by apply Sorted_le_high. }
  exists rows. split; [done|]. split.
  - clear Hrows. induction Hall as [|d r ds rs (Hd & _) _ IH]; [done|].
    cbn [map]. by rewrite Hd, IH.
  - clear Hrows. induction Hall as [|d r ds rs (_ & Hr & _) _ IH];
      by constructor.
Qed.

Lemma main_run_after_process_raw_text_witness :
  exists rows,
    main_run (le_image [100; 0x10000; 0x10008; 0x10100]) = Return rows
    /\ map row_max_dist rows = [1; 2; 4; 8; 16; 32; 64]
    /\ Forall (fun r => 1 <= row_groups r <= row_total r) rows.
Proof.
  apply (main_run_after_process_raw_text [100; 0x10000; 0x10008; 0x10100]).
  - reflexivity.
  - repeat constructor; lia.
  - repeat constructor; intros _; reflexivity.
  - apply Exists_cons_tl, Exists_cons_hd. unfold CUTOFF. lia.
Defined.

(** X14 (a successful classification).  Whenever the classification loop
    of [main] succeeds, every key went to exactly one of the two lists,
    every member of [low] is below [CUTOFF], every member of [high] is at
    or above it, and the keys at or above [CUTOFF] are recovered from
    [high] as [CUTOFF + 4 * (h - CUTOFF)]. *)
Theorem main_classify_ok_inv (nums low high : list Z) :
  main_classify nums = Ok (low, high) ->
  len low + len high = len nums
  /\ Forall (fun x => x < CUTOFF) low
  /\ Forall (fun h => CUTOFF <= h) high
  /\ map (fun h => CUTOFF + 4 * (h - CUTOFF)) high =
     List.filter (fun x => CUTOFF <=? x) nums.
Proof.
  intros Hok. apply main_classify_ok_eq in Hok as (Hdiv & -> & ->).
  clear -Hdiv. induction Hdiv as [|x nums Hx _ (Hlen & Hlow & Hhigh & Hinv)].
  - split_and!; [done | constructor | constructor | done].
  - cbn [List.filter].
    destruct (Z.ltb_spec x CUTOFF), (Z.leb_spec CUTOFF x); try lia.
    + split_and!; [| by constructor | done | done].
      revert Hlen. unfold len. cbn [length]. lia.
    + cbn [map]. split_and!; [| done | | ].
      * revert Hlen. unfold len. cbn [length]. lia.
      * constructor; [by apply rescale_ge | done].
      * rewrite Hinv. f_equal.
        pose proof (rescale_exact x (Hx ltac:(done))). lia.
Qed.

Lemma main_classify_ok_inv_witness :
  len [100] + len [0x10000; 0x10002] = len [100; 0x10000; 0x10008]
  /\ Forall (fun x => x < CUTOFF) [100]
  /\ Forall (fun h => CUTOFF <= h) [0x10000; 0x10002]
  /\ map (fun h => CUTOFF + 4 * (h - CUTOFF)) [0x10000; 0x10002] =
     List.filter (fun x => CUTOFF <=? x) [100; 0x10000; 0x10008].
Proof.
  apply (main_classify_ok_inv [100; 0x10000; 0x10008]). reflexivity.
Defined.

(** X15 (order is kept).  Whenever the classification loop of [main]
    succeeds on ascending keys, [high] is ascending; on strictly ascending
    keys it is strictly ascending. *)
Theorem main_classify_sorted (nums low high : list Z) :
  main_classify nums = Ok (low, high) ->
  (Sorted Z.le nums -> Sorted Z.le high)
  /\ (Sorted Z.lt nums -> Sorted Z.lt high).
Proof.
  intros Hok. apply main_classify_ok_eq in Hok as (Hdiv & -> & ->).
  split; [apply Sorted_le_high | by apply Sorted_lt_high].
Qed.

Lemma main_classify_sorted_witness :
  Sorted Z.le [0x10000; 0x10002] /\ Sorted Z.lt [0x10000; 0x10002].
Proof.
  destruct (main_classify_sorted [100; 0x10000; 0x10008]
              [100] [0x10000; 0x10002] eq_refl) as [Hle Hlt].
  split; [apply Hle | apply Hlt]; repeat constructor; lia.
Defined.

(** ** More on the locator and the group builder *)

Lemma locate_sound (starts : list Z) (x PAGE : Z) (pos : nat) :
  locate starts x PAGE pos = -1
  \/ exists s,
       starts !! Z.to_nat (locate starts x PAGE pos) = Some s
       /\ 0 <= locate starts x PAGE pos
       /\ Z.abs (s - x) < PAGE.
Proof.
  unfold locate.
  destruct (qualifies PAGE x (starts !! pos)) eqn:Hq.
  - apply qualifies_true in Hq as (s & Hs & Hw).
    destruct pos as [|p].
    + right. exists s. by rewrite Nat2Z.id.
    + destruct (qualifies PAGE x (starts !! p)) eqn:Hq'.
      * apply qualifies_true in Hq' as (s' & Hs' & Hw'). right. exists s'.
        replace (Z.to_nat (Z.of_nat (S p) - 1)) with p by lia.
        split_and!; [done | lia | done].
      * right. exists s. rewrite Nat2Z.id. split_and!; [done | lia | done].
  - destruct pos as [|p]; [by left|].
    destruct (qualifies PAGE x (starts !! p)) eqn:Hq'; [|by left].
    apply qualifies_true in Hq' as (s' & Hs' & Hw'). right. exists s'.
    replace (Z.to_nat (Z.of_nat (S p) - 1)) with p by lia.
    split_and!; [done | lia | done].
Qed.

Lemma qualifies_false (PAGE x : Z) (s : Z) :
  qualifies PAGE x (Some s) = false <-> PAGE <= Z.abs (s - x).
Proof. cbn [qualifies]. by rewrite Z.ltb_ge. Qed.

Lemma locate_not_found (starts : list Z) (x PAGE : Z) (pos : nat) :
  Sorted Z.le starts ->
  insertion_point starts x pos ->
  locate starts x PAGE pos = -1 <->
  Forall (fun s => PAGE <= Z.abs (s - x)) starts.
Proof.
  intros Hs (Hle & Hbelow & Habove). split.
  - intros Hloc.
    assert (Hq : qualifies PAGE x (starts !! pos) = false
                 /\ match pos with
                    | O => false
                    | S p => qualifies PAGE x (starts !! p)
                    end = false).
    { unfold locate in Hloc. destruct pos as [|p].
      - destruct (qualifies PAGE x (starts !! 0%nat)); [lia | done].
      - destruct (qualifies PAGE x (starts !! S p)),
                 (qualifies PAGE x (starts !! p)); try done; lia. }
    destruct Hq as [Hq Hq'].
    apply Forall_lookup_2. intros i s Hi.
    destruct (Nat.lt_ge_cases i pos) as [Hlt|Hge].
    + destruct pos as [|p]; [lia|].
      destruct (lookup_lt_is_Some_2 starts p) as [sp Hsp]; [lia|].
      rewrite Hsp in Hq'. apply qualifies_false in Hq'.
      pose proof (Hbelow p sp Hsp ltac:(lia)).
      pose proof (Hbelow i s Hi Hlt).
      pose proof (Sorted_le_lookup starts Hs i p s sp Hi Hsp ltac:(lia)).
      lia.
    + destruct (lookup_lt_is_Some_2 starts pos) as [sp Hsp].
      { apply lookup_lt_Some in Hi. lia. }
      rewrite Hsp in Hq. apply qualifies_false in Hq.
      pose proof (Habove pos sp Hsp ltac:(lia)).
      pose proof (Habove i s Hi Hge).
      pose proof (Sorted_le_lookup starts Hs pos i sp s Hsp Hi Hge).
      lia.
  - intros Hfar. unfold locate.
    assert (Hno : forall i, qualifies PAGE x (starts !! i) = false).
    { intros i. destruct (starts !! i) as [s|] eqn:Hi; [|done].
      apply qualifies_false. exact (Forall_lookup_1 _ _ _ _ Hfar Hi). }
    rewrite (Hno pos). destruct pos as [|p]; [done|]. by rewrite (Hno p).
Qed.

(** X16 (a returned index is within the window).  For a non-empty list of
    non-empty groups, sorted or not, [find_group_index] returns either [-1]
    or the index of a group whose start [s] satisfies
    [abs (s - x) < PAGE]. *)
Theorem find_group_index_sound
        (groups : list (list Z)) (starts : list Z) (x PAGE : Z) :
  groups <> [] ->
  Forall2 is_start groups starts ->
  exists r,
    find_group_index groups x PAGE = Ok r
    /\ (r = -1
        \/ exists s, starts !! Z.to_nat r = Some s
                     /\ 0 <= r /\ Z.abs (s - x) < PAGE).
Proof.
  intros Hne Hall.
  destruct (bisect_left_total starts x) as (pos & Hpos & Hle).
  exists (locate starts x PAGE pos). split.
  - by apply (find_group_index_eval groups starts x PAGE pos).
  - apply locate_sound.
Qed.

Lemma find_group_index_sound_witness :
  exists r,
    find_group_index [[5000]; [100; 101]; [2000]] 900 1024 = Ok r
    /\ (r = -1
        \/ exists s, [5000; 100; 2000] !! Z.to_nat r = Some s
                     /\ 0 <= r /\ Z.abs (s - 900) < 1024).
Proof.
  apply (find_group_index_sound [[5000]; [100; 101]; [2000]]
                                [5000; 100; 2000] 900 1024).
  - discriminate.
  - repeat constructor.
Defined.

(** X17 (not found is exact).  For a non-empty group list with ascending
    starts, [find_group_index] returns [-1] exactly when no group start
    lies within the window, that is when [abs (s - x) >= PAGE] for every
    start [s]. *)
Theorem find_group_index_not_found
        (groups : list (list Z)) (starts : list Z) (x PAGE : Z) :
  groups <> [] ->
  Forall2 is_start groups starts ->
  Sorted Z.le starts ->
  find_group_index groups x PAGE = Ok (-1) <->
  Forall (fun s => PAGE <= Z.abs (s - x)) starts.
Proof.
  intros Hne Hall Hs.
  destruct (bisect_left_sorted starts x Hs) as (pos & Hpos & Hins).
  rewrite (find_group_index_eval groups starts x PAGE pos);
    [| done | done | done | by destruct Hins].
  rewrite <- (locate_not_found starts x PAGE pos Hs Hins).
  split; [by intros [= ->] | by intros ->].
Qed.

Lemma find_group_index_not_found_witness :
  find_group_index [[100; 101]; [2000]; [5000]] 3500 1024 = Ok (-1) <->
  Forall (fun s => 1024 <= Z.abs (s - 3500)) [100; 2000; 5000].
Proof.
  apply (find_group_index_not_found [[100; 101]; [2000]; [5000]]
                                    [100; 2000; 5000] 3500 1024).
  - discriminate.
  - repeat constructor.
  - repeat constructor; lia.
Defined.

Lemma adjacent_distances_cons (a b : Z) (l : list Z) :
  adjacent_distances (a :: b :: l) = (b - a) :: adjacent_distances (b :: l).
Proof. reflexivity. Qed.

Lemma spaced_sorted (gap : Z) (l : list Z) :
  0 <= gap ->
  Forall (fun d => gap < d) (adjacent_distances l) ->
  Sorted Z.lt l.
Proof.
  intros Hgap. induction l as [|a [|b l] IH]; intros Hsp.
  - constructor.
  - by repeat constructor.
  - rewrite adjacent_distances_cons in Hsp.
    apply Forall_cons in Hsp as [Hab Hsp].
    constructor; [by apply IH|]. constructor. lia.
Qed.

Lemma runs_starts (gap : Z) (xs : list Z) :
  forall prev,
    Sorted Z.le (prev :: xs) ->
    exists starts,
      Forall2 is_start (snd (runs gap prev xs)) starts
      /\ forall s0, s0 <= prev ->
           Forall (fun d => gap < d) (adjacent_distances (s0 :: starts)).
Proof.
  induction xs as [|x xs IH]; intros prev Hs.
  - exists []. split; [constructor | by constructor].
  - apply Sorted_inv in Hs as [Hs Hhd]. apply HdRel_inv in Hhd.
    destruct (IH x Hs) as (starts & Hst & Hsp). cbn [runs].
    destruct (runs gap x xs) as [c gs]. cbn [snd] in Hst.
    destruct (Z.gtb_spec (x - prev) gap); cbn [snd].
    + exists (x :: starts). split; [by constructor|].
      intros s0 Hs0. rewrite adjacent_distances_cons.
      constructor; [lia|]. apply Hsp. lia.
    + exists starts. split; [done|]. intros s0 Hs0. apply Hsp. lia.
Qed.

Lemma groups_of_starts (gap : Z) (nums : list Z) :
  nums <> [] ->
  Sorted Z.le nums ->
  exists starts,
    Forall2 is_start (groups_of gap nums) starts
    /\ Forall (fun d => gap < d) (adjacent_distances starts).
Proof.
  intros Hne Hs. destruct nums as [|x0 xs]; [done|].
  destruct (runs_starts gap xs x0 Hs) as (starts & Hst & Hsp).
  rewrite groups_of_cons. exists (x0 :: starts).
  split; [by constructor | apply Hsp; lia].
Qed.

Lemma locate_own_start (starts : list Z) (PAGE : Z) (i : nat) (s : Z) :
  0 < PAGE ->
  Forall (fun d => PAGE <= d) (adjacent_distances starts) ->
  starts !! i = Some s ->
  locate starts s PAGE i = Z.of_nat i.
Proof.
  intros HPAGE Hdist Hi. unfold locate. rewrite Hi. cbn [qualifies].
  replace (s - s) with 0 by lia.
  destruct (Z.ltb_spec (Z.abs 0) PAGE) as [_|Habs]; [|simpl in Habs; lia].
  destruct i as [|p]; [done|].
  destruct (lookup_lt_is_Some_2 starts p) as [a Ha].
  { apply lookup_lt_Some in Hi. lia. }
  rewrite Ha. cbn [qualifies].
  pose proof (adjacent_distances_lookup starts p a s Ha Hi) as Hd.
  pose proof (Forall_lookup_1 _ _ _ _ Hdist Hd) as Hge. cbv beta in Hge.
  by destruct (Z.ltb_spec (Z.abs (a - s)) PAGE) as [Hlt|_]; [lia|].
Qed.

(** X18 (the groups feed the locator).  For non-empty ascending keys and a
    non-negative tolerance, the starts of the groups returned by
    [get_groups] are strictly ascending, and every two adjacent starts are
    more than [gap] apart. *)
Theorem get_groups_starts (nums : list Z) (gap : Z) :
  nums <> [] ->
  Sorted Z.le nums ->
  0 <= gap ->
  exists groups starts,
    get_groups nums gap = Ok groups
    /\ Forall2 is_start groups starts
    /\ Sorted Z.lt starts
    /\ Forall (fun d => gap < d) (adjacent_distances starts).
Proof.
  intros Hne Hs Hgap.
  destruct (groups_of_starts gap nums Hne Hs) as (starts & Hst & Hsp).
  exists (groups_of gap nums), starts.
  split_and!; [by apply get_groups_nonempty | done | | done].
  by apply (spaced_sorted gap).
Qed.

Lemma get_groups_starts_witness :
  exists groups starts,
    get_groups [1; 2; 3; 10; 11; 50] 1 = Ok groups
    /\ Forall2 is_start groups starts
    /\ Sorted Z.lt starts
    /\ Forall (fun d => 1 < d) (adjacent_distances starts).
Proof.
  apply (get_groups_starts [1; 2; 3; 10; 11; 50] 1).
  - discriminate.
  - repeat constructor; lia.
  - lia.
Defined.

(** X19 (locating a built group).  For non-empty ascending keys grouped
    with tolerance [gap], and a page size with [0 < PAGE <= gap + 1],
    querying [find_group_index] on the returned groups with the first
    element of any group returns the index of that group. *)
Theorem find_group_index_of_get_groups (nums : list Z) (gap PAGE : Z) :
  nums <> [] ->
  Sorted Z.le nums ->
  0 < PAGE -> PAGE <= gap + 1 ->
  exists groups,
    get_groups nums gap = Ok groups
    /\ forall (i : nat) (g : list Z) (s : Z),
         groups !! i = Some g -> head g = Some s ->
         find_group_index groups s PAGE = Ok (Z.of_nat i).
Proof.
  intros Hne Hs HPAGE Hgap.
  destruct (groups_of_starts gap nums Hne Hs) as (starts & Hst & Hsp).
  exists (groups_of gap nums). split; [by apply get_groups_nonempty|].
  intros i g s Hg Hhead.
  assert (Hlt : Sorted Z.lt starts) by (apply (spaced_sorted gap); [lia|done]).
  assert (Hi : starts !! i = Some s).
  { destruct (Forall2_lookup_l _ _ _ _ _ Hst Hg) as (s' & Hs' & Hstart).
    unfold is_start in Hstart. congruence. }
  assert (Hgroups : groups_of gap nums <> []).
  { intros Hnil. by rewrite Hnil in Hg. }
  destruct (bisect_left_sorted starts s (Sorted_lt_le _ Hlt))
    as (pos & Hpos & Hins).
  assert (pos = i) as ->
    by exact (insertion_point_own_start _ _ _ _ Hlt Hi Hins).
  rewrite (find_group_index_eval _ starts s PAGE i);
    [| done | done | done | by destruct Hins].
  f_equal. apply locate_own_start; [done | | done].
  eapply Forall_impl; [exact Hsp|]. intros d Hd. cbv beta in Hd. lia.
Qed.

Lemma find_group_index_of_get_groups_witness :
  exists groups,
    get_groups [1; 2; 3; 10; 11; 50] 4 = Ok groups
    /\ forall (i : nat) (g : list Z) (s : Z),
         groups !! i = Some g -> head g = Some s ->
         find_group_index groups s 5 = Ok (Z.of_nat i).
Proof.
  apply (find_group_index_of_get_groups [1; 2; 3; 10; 11; 50] 4 5).
  - discriminate.
  - repeat constructor; lia.
  - lia.
  - lia.
Defined.

(** X20 (number of groups).  For a non-empty key list the number of groups
    returned by [get_groups] is one more than the number of consecutive
    keys that are more than [gap] apart. *)
Theorem get_groups_count (nums : list Z) (gap : Z) :
  nums <> [] ->
  exists groups,
    get_groups nums gap = Ok groups
    /\ len groups =
       1 + len (List.filter (fun d => gap <? d) (adjacent_distances nums)).
Proof.
  intros Hne. exists (groups_of gap nums).
  split; [by apply get_groups_nonempty|].
  destruct nums as [|x0 xs]; [done|]. clear Hne. revert x0.
  induction xs as [|x xs IH]; intros prev; [reflexivity|].
  rewrite groups_of_length_step, (IH x), adjacent_distances_cons.
  cbn [List.filter]. rewrite Z.gtb_ltb.
  destruct (gap <? x - prev); unfold len; cbn [length]; lia.
Qed.

Lemma get_groups_count_witness :
  exists groups,
    get_groups [1; 2; 3; 10; 11; 50] 1 = Ok groups
    /\ len groups =
       1 + len (List.filter (fun d => 1 <? d)
                            (adjacent_distances [1; 2; 3; 10; 11; 50])).
Proof.
  apply (get_groups_count [1; 2; 3; 10; 11; 50] 1). discriminate.
Defined.
